(** * crypmonsys: multi-client predicate-only encryption for conjunctive
      equality tests

    A shallow embedding of [crypmonsys.go] and the properties of its
    operations: the pseudorandom function [F], key generation, encryption by
    an agent, token generation by the rule generator and the pairing test of
    the alarm system.

    Conventions of the embedding.
    - Go's [int] and [int32] values are integers of [Z]; the functions below
      only compare, increment and shift them to the right, so no wrap-around
      arises.
    - A Go panic is the [Panic] outcome; a function that returns does so
      through [Ret].  The error value of [NewToken] is an ordinary returned
      value.
    - [*pbc.Element] values are typed by the algebraic structure they live
      in ([Zr], [G1], [G2], [GT]); pointers are taken to be non-nil.  The one
      place where the structure is picked at run time, the [group] argument
      of [F], uses the tagged [Element].
    - [Rand()] reads a randomness source that is threaded through the
      functions as explicit state. *)

From Stdlib Require Import ZArith List String Bool Lia.
Import ListNotations.

Local Open Scope Z_scope.

(** ** The Go run time: panics and slice indexing *)

Inductive PanicValue : Type :=
| IndexOutOfRange (index : Z) (len : Z)
    (* runtime error: index out of range [index] with length len *)
| MakeSliceLenOutOfRange
    (* runtime error: makeslice: len out of range *)
| PanicString (msg : string)
    (* panic("msg") written in the program *)
| ErrIncompatible
    (* pbc: checked elements of different algebraic structures *)
| ErrBadPairList.
    (* pbc: pairing product over slices of different lengths *)

Inductive Outcome (A : Type) : Type :=
| Ret (a : A)
| Panic (p : PanicValue).

Arguments Ret {A} a.
Arguments Panic {A} p.

Definition bind {A B : Type} (m : Outcome A) (k : A -> Outcome B) : Outcome B :=
  match m with
  | Ret a => k a
  | Panic p => Panic p
  end.

Notation "x <- m ;; k" := (bind m (fun x => k))
  (at level 61, m at next level, right associativity).
Notation "' pat <- m ;; k" := (bind m (fun x => match x with pat => k end))
  (at level 61, pat pattern, m at next level, right associativity).

(** [len(l)] *)
Definition len {A : Type} (l : list A) : Z := Z.of_nat (List.length l).

(** [l[i]]: the Go run time checks the index and panics outside [0, len(l)). *)
Definition index {A : Type} (l : list A) (i : Z) : Outcome A :=
  if i <? 0 then Panic (IndexOutOfRange i (len l))
  else match nth_error l (Z.to_nat i) with
       | Some a => Ret a
       | None => Panic (IndexOutOfRange i (len l))
       end.

(** An outcome is an index panic of the run time. *)
Definition index_panic {A : Type} (o : Outcome A) : Prop :=
  exists i n, o = Panic (IndexOutOfRange i n).

(** An outcome is a normal return. *)
Definition returns {A : Type} (o : Outcome A) : Prop :=
  exists a, o = Ret a.

(** ** The pairing library

    The operations of [github.com/Nik-U/pbc] that the program calls.  The
    hash handed to [SetFromStringHash] is always [sha256.New()]. *)

Inductive Hash : Type := sha256_New.

Class Pairing : Type := {
  Zr : Type;
  G1 : Type;
  G2 : Type;
  GT : Type;
  (* NewZr().Set1(), x.ThenMulZn(y) on Zr *)
  Zr_1 : Zr;
  Zr_mul : Zr -> Zr -> Zr;
  (* NewG1().PowZn(x, k), x.ThenMul(y) on G1 *)
  G1_pow : G1 -> Zr -> G1;
  G1_mul : G1 -> G1 -> G1;
  (* NewG2().Set1(), NewG2().PowZn(x, k), x.ThenMul(y) on G2 *)
  G2_1 : G2;
  G2_pow : G2 -> Zr -> G2;
  G2_mul : G2 -> G2 -> G2;
  (* the empty product, x.ThenMul(y), x^k and x.Equals(y) on GT *)
  GT_1 : GT;
  GT_mul : GT -> GT -> GT;
  GT_pow : GT -> Zr -> GT;
  Equals : GT -> GT -> bool;
  (* NewGT().Pair(x, y) *)
  Pair : G1 -> G2 -> GT;
  (* NewG1().SetFromStringHash(s, h) *)
  SetFromStringHash : string -> Hash -> G1;
  (* the randomness source read by Rand() *)
  RandState : Type;
  Rand_Zr : RandState -> Zr * RandState;
  Rand_G1 : RandState -> G1 * RandState;
  Rand_G2 : RandState -> G2 * RandState
}.

(** The algebra of a pairing: [Zr] is commutative under multiplication,
    [GT] is a commutative monoid, exponents compose, and [Pair] is bilinear. *)
Class PairingLaws (P : Pairing) : Prop := {
  Zr_mul_comm : forall a b : Zr, Zr_mul a b = Zr_mul b a;
  Zr_mul_assoc : forall a b c : Zr, Zr_mul a (Zr_mul b c) = Zr_mul (Zr_mul a b) c;
  GT_mul_comm : forall x y : GT, GT_mul x y = GT_mul y x;
  GT_mul_assoc : forall x y z : GT, GT_mul x (GT_mul y z) = GT_mul (GT_mul x y) z;
  GT_mul_1_r : forall x : GT, GT_mul x GT_1 = x;
  GT_pow_pow : forall (x : GT) (a b : Zr), GT_pow (GT_pow x a) b = GT_pow x (Zr_mul a b);
  Pair_mul_l : forall (x y : G1) (z : G2), Pair (G1_mul x y) z = GT_mul (Pair x z) (Pair y z);
  Pair_mul_r : forall (x : G1) (y z : G2), Pair x (G2_mul y z) = GT_mul (Pair x y) (Pair x z);
  Pair_pow_l : forall (x : G1) (y : G2) (k : Zr), Pair (G1_pow x k) y = GT_pow (Pair x y) k;
  Pair_pow_r : forall (x : G1) (y : G2) (k : Zr), Pair x (G2_pow y k) = GT_pow (Pair x y) k;
  Pair_1_r : forall x : G1, Pair x G2_1 = GT_1;
  Equals_eq : forall x y : GT, Equals x y = true <-> x = y
}.

(** ** The program *)

Section Crypmonsys.

Context {P : Pairing}.

(** A [*pbc.Element] whose group is known only at run time. *)
Inductive Element : Type :=
| InG1 (x : G1)
| InG2 (x : G2).

(** The fresh element [NewG1()] or [NewG2()] that receives a result. *)
Inductive Target : Type := NewG1 | NewG2.

(** [result.PowZn(base, k)]: pbc checks that [result] and [base] belong to
    the same structure. *)
Definition PowZn (result : Target) (base : Element) (k : Zr) : Outcome Element :=
  match result, base with
  | NewG1, InG1 x => Ret (InG1 (G1_pow x k))
  | NewG2, InG2 x => Ret (InG2 (G2_pow x k))
  | _, _ => Panic ErrIncompatible
  end.

(** [x.ThenMul(y)] for [y] in G1. *)
Definition ThenMul_G1 (x : Element) (y : G1) : Outcome G1 :=
  match x with
  | InG1 x' => Ret (G1_mul x' y)
  | InG2 _ => Panic ErrIncompatible
  end.

(** An element stored where the program keeps elements of G2. *)
Definition in_G2 (x : Element) : Outcome G2 :=
  match x with
  | InG2 x' => Ret x'
  | InG1 _ => Panic ErrIncompatible
  end.

(** The product of the pairings of matching elements. *)
Fixpoint prod_pairings (xs : list G1) (ys : list G2) : GT :=
  match xs, ys with
  | x :: xs', y :: ys' => GT_mul (Pair x y) (prod_pairings xs' ys')
  | _, _ => GT_1
  end.

(** [NewGT().ProdPairSlice(xs, ys)]: pbc requires slices of equal length. *)
Definition ProdPairSlice (xs : list G1) (ys : list G2) : Outcome GT :=
  if len xs =? len ys then Ret (prod_pairings xs ys) else Panic ErrBadPairList.

Record SystemParameters : Type := {
  g1 : G1;
  g2 : G2
}.

(** The loop of [F],
    [for x, i := input, 0; x > 0; i, x = i+1, x>>1 { if x%2 == 1 { br.ThenMulZn(beta[i]) } }],
    entered with [x = Zpos p > 0].  The binary digits of [p] are the values
    of [x%2] along the iterations: [p~1] is odd and shifts to [p], [p~0] is
    even and shifts to [p], and [1] is odd and shifts to [0], which ends the
    loop.  [F_for_unfold] below states the loop in the program's own terms. *)
Fixpoint F_loop (beta : list Zr) (p : positive) (i : Z) (br : Zr) : Outcome Zr :=
  match p with
  | xH => b <- index beta i ;; Ret (Zr_mul br b)
  | xO p' => F_loop beta p' (i + 1) br
  | xI p' => b <- index beta i ;; F_loop beta p' (i + 1) (Zr_mul br b)
  end.

Definition F_for (beta : list Zr) (x : Z) (i : Z) (br : Zr) : Outcome Zr :=
  match x with
  | Zpos p => F_loop beta p i br
  | _ => Ret br
  end.

(** [func (sp *SystemParameters) F(group, base, beta, aux, input)] *)
Definition F (sp : SystemParameters) (group : Z) (base : Element)
    (beta : list Zr) (aux : Zr) (input : Z) : Outcome Element :=
  br <- F_for beta input 0 Zr_1 ;;
  let br := Zr_mul br aux in
  result <- match group with
            | 1 => Ret NewG1
            | 2 => Ret NewG2
            | _ => Panic (PanicString "Group should be either 1 or 2.")
            end ;;
  PowZn result base br.

(** [func NewSystemParameters(pairing)] *)
Definition NewSystemParameters (s : RandState) : SystemParameters * RandState :=
  let (x, s1) := Rand_G1 s in
  let (y, s2) := Rand_G2 s1 in
  ({| g1 := x; g2 := y |}, s2).

(** [func NewSystemParametersFromFile(filename)] *)
Definition NewSystemParametersFromFile (filename : string) : Outcome SystemParameters :=
  Panic (PanicString "Unimplemented!").

Record SetupPart : Type := {
  SetupPart_alpha : Zr;
  SetupPart_beta : list Zr;
  SetupPart_gamma : Zr
}.

Record SetupKey : Type := {
  SetupKey_keys : list SetupPart;
  SetupKey_sp : SystemParameters
}.

Record Agent : Type := {
  Agent_index : Z;
  Agent_g1alpha : G1;
  Agent_beta : list Zr;
  Agent_gamma : Zr;
  Agent_sp : SystemParameters
}.

Record Ciphertext : Type := {
  Ciphertext_index : Z;
  part1 : G1;
  part2 : G1
}.

(** [func (a *Agent) NewCiphertext(identifier, plaintext)] *)
Definition NewCiphertext (a : Agent) (identifier : string) (plaintext : Z)
    (s : RandState) : Outcome (Ciphertext * RandState) :=
  let hID := SetFromStringHash identifier sha256_New in
  let (r, s') := Rand_Zr s in
  let ct1 := G1_pow (g1 (Agent_sp a)) r in
  f <- F (Agent_sp a) 1 (InG1 (Agent_g1alpha a)) (Agent_beta a) r plaintext ;;
  ct2 <- ThenMul_G1 f (G1_pow hID (Agent_gamma a)) ;;
  Ret ({| Ciphertext_index := Agent_index a; part1 := ct1; part2 := ct2 |}, s').

Record AgentInfo : Type := {
  g2alpha : G2;
  AgentInfo_beta : list Zr;
  g2gamma : G2
}.

Record RuleGenerator : Type := {
  agents : list AgentInfo;
  RuleGenerator_sp : SystemParameters
}.

Record RuleToken : Type := {
  indices : list Z;
  g2u : list G2;
  f2u : list G2;
  product : G2
}.

Inductive error : Type := ErrWrongNumberOfRules.

(** The body of [for i, v := range rules] in [NewToken], from position [i]
    on, over the token [r] built so far. *)
Fixpoint NewToken_range (rg : RuleGenerator) (rules : list Z) (i : Z)
    (r : RuleToken) (s : RandState) : Outcome (RuleToken * RandState) :=
  match rules with
  | [] => Ret (r, s)
  | v :: rules' =>
      if v >=? 0 then
        let (u, s') := Rand_Zr s in
        ai <- index (agents rg) i ;;
        f <- F (RuleGenerator_sp rg) 2 (InG2 (g2alpha ai)) (AgentInfo_beta ai) u v ;;
        f' <- in_G2 f ;;
        NewToken_range rg rules' (i + 1)
          {| indices := indices r ++ [i];
             g2u := g2u r ++ [G2_pow (g2 (RuleGenerator_sp rg)) u];
             f2u := f2u r ++ [f'];
             product := G2_mul (product r) (G2_pow (g2gamma ai) u) |}
          s'
      else NewToken_range rg rules' (i + 1) r s
  end.

(** [func (rg *RuleGenerator) NewToken(rules)]: the pair of the token and the
    error, either of which is [nil] ([None]). *)
Definition NewToken (rg : RuleGenerator) (rules : list Z) (s : RandState)
    : Outcome ((option RuleToken * option error) * RandState) :=
  if len rules <? len (agents rg) then Ret ((None, Some ErrWrongNumberOfRules), s)
  else
    '(r, s') <- NewToken_range rg rules 0
                  {| indices := []; g2u := []; f2u := []; product := G2_1 |} s ;;
    Ret ((Some r, None), s').

(** [func NewSetupKey(sp)] *)
Definition NewSetupKey (sp : SystemParameters) : SetupKey :=
  {| SetupKey_keys := []; SetupKey_sp := sp |}.

(** [make([]*pbc.Element, n)] *)
Definition make (n : Z) : Outcome unit :=
  if n <? 0 then Panic MakeSliceLenOutOfRange else Ret tt.

(** The inner loop of [GenerateKeys]: [count] further entries of [beta]. *)
Fixpoint GenerateKeys_beta (count : nat) (s : RandState) : list Zr * RandState :=
  match count with
  | O => ([], s)
  | S count' =>
      let (b, s1) := Rand_Zr s in
      let (bs, s2) := GenerateKeys_beta count' s1 in
      (b :: bs, s2)
  end.

(** The outer loop of [GenerateKeys] with [count] agents left, the next one
    being agent [i].  The slices [agents] and [rg.agents] are allocated with
    [n] entries and entry [i] is written in iteration [i]; the lists
    [as_] and [infos] hold the entries written so far. *)
Fixpoint GenerateKeys_loop (sk : SetupKey) (messageSpaceBitSize : Z) (count : nat)
    (i : Z) (infos : list AgentInfo) (as_ : list Agent) (s : RandState)
    : Outcome ((list AgentInfo * list Agent) * RandState) :=
  match count with
  | O => Ret ((infos, as_), s)
  | S count' =>
      let sp := SetupKey_sp sk in
      let (alpha, s1) := Rand_Zr s in
      _ <- make messageSpaceBitSize ;;
      let (beta, s2) := GenerateKeys_beta (Z.to_nat messageSpaceBitSize) s1 in
      let (gamma, s3) := Rand_Zr s2 in
      GenerateKeys_loop sk messageSpaceBitSize count' (i + 1)
        (infos ++ [{| g2alpha := G2_pow (g2 sp) alpha;
                      AgentInfo_beta := beta;
                      g2gamma := G2_pow (g2 sp) gamma |}])
        (as_ ++ [{| Agent_index := i;
                    Agent_g1alpha := G1_pow (g1 sp) alpha;
                    Agent_beta := beta;
                    Agent_gamma := gamma;
                    Agent_sp := sp |}])
        s3
  end.

(** [func (sk *SetupKey) GenerateKeys(n, messageSpaceBitSize)] *)
Definition GenerateKeys (sk : SetupKey) (n messageSpaceBitSize : Z) (s : RandState)
    : Outcome ((RuleGenerator * list Agent) * RandState) :=
  _ <- make n ;;
  '((infos, as_), s') <- GenerateKeys_loop sk messageSpaceBitSize (Z.to_nat n) 0 [] [] s ;;
  Ret (({| agents := infos; RuleGenerator_sp := SetupKey_sp sk |}, as_), s').

Record AlarmSystem : Type := {
  AlarmSystem_sp : SystemParameters;
  rt : RuleToken;
  hID : G1
}.

(** [func NewAlarmSystem(sp, rt, identifier)] *)
Definition NewAlarmSystem (sp : SystemParameters) (rt : RuleToken)
    (identifier : string) : AlarmSystem :=
  {| AlarmSystem_sp := sp; rt := rt;
     hID := SetFromStringHash identifier sha256_New |}.

(** The loop [for i, v := range as.rt.indices] of [Test], which fills
    [parts1] and [parts2]. *)
Fixpoint Test_parts (ct : list Ciphertext) (idx : list Z) : Outcome (list G1 * list G1) :=
  match idx with
  | [] => Ret ([], [])
  | v :: idx' =>
      c <- index ct v ;;
      '(parts1, parts2) <- Test_parts ct idx' ;;
      Ret (part1 c :: parts1, part2 c :: parts2)
  end.

(** [func (as *AlarmSystem) Test(ct)] *)
Definition Test (as_ : AlarmSystem) (ct : list Ciphertext) : Outcome bool :=
  '(parts1, parts2) <- Test_parts ct (indices (rt as_)) ;;
  p1 <- ProdPairSlice parts1 (f2u (rt as_)) ;;
  let p1 := GT_mul p1 (Pair (hID as_) (product (rt as_))) in
  p2 <- ProdPairSlice parts2 (g2u (rt as_)) ;;
  Ret (Equals p1 p2).

End Crypmonsys.

(** ** What the specification says, in its own words *)

Section Specification.

Context {P : Pairing}.

(** The scalar of [F]: starting from the multiplicative identity, the bit
    positions of [input] are scanned from the least significant one upward
    and [beta[i]] is multiplied in for every position [i] whose bit is 1;
    [aux] is multiplied in once at the end. *)
Definition F_step (beta : list Zr) (input : Z) (acc : Zr) (i : nat) : Zr :=
  if Z.testbit input (Z.of_nat i) then Zr_mul acc (nth i beta Zr_1) else acc.

Definition F_scalar (beta : list Zr) (aux : Zr) (input : Z) : Zr :=
  Zr_mul (fold_left (F_step beta input) (seq 0 (List.length beta)) Zr_1) aux.

(** The positions [i], counted from [i0], of the non-negative entries of a
    rules sequence. *)
Fixpoint nonneg_positions (rules : list Z) (i0 : Z) : list Z :=
  match rules with
  | [] => []
  | v :: rules' =>
      if v >=? 0 then i0 :: nonneg_positions rules' (i0 + 1)
      else nonneg_positions rules' (i0 + 1)
  end.

(** The test as the specification words it: [p1] pairs every [part2] with
    the [g2u] entry and is multiplied by the pairing of the identifier hash
    with the product; [p2] pairs every [part1] with the [f2u] entry. *)
Definition Test_as_specified (as_ : AlarmSystem) (ct : list Ciphertext) : Outcome bool :=
  '(parts1, parts2) <- Test_parts ct (indices (rt as_)) ;;
  p1 <- ProdPairSlice parts2 (g2u (rt as_)) ;;
  let p1 := GT_mul p1 (Pair (hID as_) (product (rt as_))) in
  p2 <- ProdPairSlice parts1 (f2u (rt as_)) ;;
  Ret (Equals p1 p2).

(** The three parallel lists of a token have one entry per included index. *)
Definition token_wf (r : RuleToken) : Prop :=
  List.length (g2u r) = List.length (indices r) /\
  List.length (f2u r) = List.length (indices r).

(** [cs] are the ciphertexts found at the indices [idx] of [ct]. *)
Definition selected (ct : list Ciphertext) (idx : list Z) (cs : list Ciphertext) : Prop :=
  Forall2 (fun v c => index ct v = Ret c) idx cs.

(** Agent [i] of [as_] encrypted [(identifier, v_i)] into [c_i], each with
    randomness of its own. *)
Inductive Encryptions (identifier : string)
  : list Agent -> list Z -> list Ciphertext -> Prop :=
| Encryptions_nil : Encryptions identifier [] [] []
| Encryptions_cons a v c s s' as_ vs cs :
    NewCiphertext a identifier v s = Ret (c, s') ->
    Encryptions identifier as_ vs cs ->
    Encryptions identifier (a :: as_) (v :: vs) (c :: cs).

(** The private bundle of an agent and the public bundle that the rule
    generator holds for it: the same [alpha], the same vector [beta] of
    [b] scalars and the same [gamma]. *)
Definition key_pair (sp : SystemParameters) (b : Z) (a : Agent) (ai : AgentInfo) : Prop :=
  Agent_sp a = sp /\
  (exists alpha, Agent_g1alpha a = G1_pow (g1 sp) alpha /\
                 g2alpha ai = G2_pow (g2 sp) alpha) /\
  AgentInfo_beta ai = Agent_beta a /\
  len (Agent_beta a) = b /\
  g2gamma ai = G2_pow (g2 sp) (Agent_gamma a).

(** Every agent carries its position as its index. *)
Definition indexed (as_ : list Agent) : Prop :=
  forall i a, index as_ i = Ret a -> Agent_index a = i.

(** The keys of [n] agents with [b]-bit messages. *)
Definition keys_of (sp : SystemParameters) (n b : Z) (rg : RuleGenerator)
    (as_ : list Agent) : Prop :=
  RuleGenerator_sp rg = sp /\
  Forall2 (key_pair sp b) as_ (agents rg) /\
  len as_ = n /\
  indexed as_.

(** The ciphertext in terms of the scalar that the loop of [F] returns. *)
Definition ciphertext_of (a : Agent) (identifier : string) (br r : Zr) : Ciphertext :=
  {| Ciphertext_index := Agent_index a;
     part1 := G1_pow (g1 (Agent_sp a)) r;
     part2 := G1_mul (G1_pow (Agent_g1alpha a) (Zr_mul br r))
                     (G1_pow (SetFromStringHash identifier sha256_New) (Agent_gamma a)) |}.

(** The token after the entry for position [i], agent [ai] and scalars
    [br] (from the loop of [F]) and [u]. *)
Definition token_snoc (sp : SystemParameters) (r : RuleToken) (i : Z) (ai : AgentInfo)
    (br u : Zr) : RuleToken :=
  {| indices := indices r ++ [i];
     g2u := g2u r ++ [G2_pow (g2 sp) u];
     f2u := f2u r ++ [G2_pow (g2alpha ai) (Zr_mul br u)];
     product := G2_mul (product r) (G2_pow (g2gamma ai) u) |}.

(** The ciphertext [c] encrypts, under [identifier], the value [v] with the
    private bundle whose public bundle is [ai]. *)
Definition encrypts (sp : SystemParameters) (identifier : string) (ai : AgentInfo)
    (v : Z) (c : Ciphertext) : Prop :=
  exists a b br r,
    key_pair sp b a ai /\
    F_for (Agent_beta a) v 0 Zr_1 = Ret br /\
    c = ciphertext_of a identifier br r.

(** The two sides that [Test] compares agree on the ciphertexts [cs]. *)
Definition balanced (h : G1) (r : RuleToken) (cs : list Ciphertext) : Prop :=
  List.length (f2u r) = List.length cs /\
  List.length (g2u r) = List.length cs /\
  GT_mul (prod_pairings (map part1 cs) (f2u r)) (Pair h (product r)) =
  prod_pairings (map part2 cs) (g2u r).

End Specification.

(** ** A pairing to compute with

    The cyclic group of order 5, each element written as its discrete
    logarithm to a fixed generator: group multiplication adds logarithms,
    exponentiation multiplies the logarithm by the exponent, and the pairing
    [e(g^a, h^b) = e(g, h)^(a b)] multiplies logarithms. *)

Module Z5.

Inductive t : Type := e0 | e1 | e2 | e3 | e4.

Definition to_Z (x : t) : Z :=
  match x with e0 => 0 | e1 => 1 | e2 => 2 | e3 => 3 | e4 => 4 end.

Definition of_Z (z : Z) : t :=
  match z mod 5 with
  | 0 => e0 | 1 => e1 | 2 => e2 | 3 => e3 | _ => e4
  end.

Definition add (x y : t) : t := of_Z (to_Z x + to_Z y).
Definition mul (x y : t) : t := of_Z (to_Z x * to_Z y).
Definition eqb (x y : t) : bool := to_Z x =? to_Z y.

(** A hash of a string and a deterministic source of scalars. *)
Definition hash (s : string) (h : Hash) : t := of_Z (1 + Z.of_nat (String.length s)).
Definition rand (s : Z) : t * Z := (of_Z (2 * s + 1), s + 1).

#[export] Instance pairing : Pairing := {|
  Zr := t; G1 := t; G2 := t; GT := t;
  Zr_1 := e1; Zr_mul := mul;
  G1_pow := mul; G1_mul := add;
  G2_1 := e0; G2_pow := mul; G2_mul := add;
  GT_1 := e0; GT_mul := add; GT_pow := mul; Equals := eqb;
  Pair := mul;
  SetFromStringHash := hash;
  RandState := Z; Rand_Zr := rand; Rand_G1 := rand; Rand_G2 := rand
|}.

(** System parameters with generators [g1 = g^1] and [g2 = h^1], a setup key
    over them, and the keys of two agents with two-bit messages. *)
Definition sp0 : SystemParameters := {| g1 := e1; g2 := e1 |}.
Definition sk0 : SetupKey := NewSetupKey sp0.

Definition rg0 : RuleGenerator :=
  match GenerateKeys sk0 2 2 0 with
  | Ret ((rg, _), _) => rg
  | Panic _ => {| agents := []; RuleGenerator_sp := sp0 |}
  end.

Definition agents0 : list Agent :=
  match GenerateKeys sk0 2 2 0 with
  | Ret ((_, as_), _) => as_
  | Panic _ => []
  end.

(** The two agents encrypt [(identifier, 1)] and [(identifier, 2)]. *)
Definition encrypt_all (as_ : list Agent) (identifier : string) (vs : list Z) (s : Z)
    : list Ciphertext :=
  List.concat (map (fun '(a, v) =>
                 match NewCiphertext a identifier v s with
                 | Ret (c, _) => [c]
                 | Panic _ => []
                 end) (combine as_ vs)).

Definition cts0 : list Ciphertext := encrypt_all agents0 "X"%string [1; 2] 10.

Definition token_of (rg : RuleGenerator) (rules : list Z) (s : Z) : RuleToken :=
  match NewToken rg rules s with
  | Ret ((Some r, _), _) => r
  | _ => {| indices := []; g2u := []; f2u := []; product := e0 |}
  end.

(** The first of the two agents. *)
Definition agent0 : Agent :=
  {| Agent_index := 0; Agent_g1alpha := e1; Agent_beta := [e3; e0];
     Agent_gamma := e2; Agent_sp := sp0 |}.

(** The token for the rules [1; 2] and the alarm system for it. *)
Definition token0 : RuleToken := token_of rg0 [1; 2] 20.
Definition alarm0 : AlarmSystem := NewAlarmSystem sp0 token0 "X"%string.

(** The token for the rules [1; -1], whose second position is a wildcard,
    and ciphertexts in which the second agent encrypted 3 instead of 2. *)
Definition token_wild : RuleToken := token_of rg0 [1; -1] 20.
Definition cts1 : list Ciphertext :=
  firstn 1 cts0 ++ skipn 1 (encrypt_all agents0 "X"%string [1; 3] 11).

(** Three agents with four-bit messages encrypt 5, 3 and 7. *)
Definition rg3 : RuleGenerator :=
  match GenerateKeys sk0 3 4 0 with
  | Ret ((rg, _), _) => rg
  | Panic _ => {| agents := []; RuleGenerator_sp := sp0 |}
  end.

Definition agents3 : list Agent :=
  match GenerateKeys sk0 3 4 0 with
  | Ret ((_, as_), _) => as_
  | Panic _ => []
  end.

Definition cts3 : list Ciphertext := encrypt_all agents3 "X"%string [5; 3; 7] 30.

End Z5.


(** ** The operations in closed form *)

Section Behaviour.

Context {P : Pairing}.

(** The randomness source after [k] scalars have been read from it. *)
Fixpoint skip (k : nat) (s : RandState) : RandState :=
  match k with
  | O => s
  | S k' => skip k' (snd (Rand_Zr s))
  end.

(** What one non-negative rule adds to a token: the position, the entries
    of [g2u] and [f2u], and the factor of [product]. *)
Record TokenEntry : Type := {
  entry_index : Z;
  entry_g2u : G2;
  entry_f2u : G2;
  entry_factor : G2
}.

(** The entries that the rules from position [i] on add to a token, with
    the randomness source before and after.  A negative rule adds nothing
    and reads nothing; a rule [v >= 0] at the position of agent [ai], with
    [v] below [2^len(beta)], reads one scalar [u] and adds
    [g2^u], [(g2^alpha)^(F_scalar beta u v)] and [(g2^gamma)^u]. *)
Inductive Entries (rg : RuleGenerator)
  : list Z -> Z -> RandState -> list TokenEntry -> RandState -> Prop :=
| Entries_nil i s : Entries rg [] i s [] s
| Entries_wildcard v rules i s es s' :
    v < 0 ->
    Entries rg rules (i + 1) s es s' ->
    Entries rg (v :: rules) i s es s'
| Entries_rule v rules i s es s' ai :
    0 <= v ->
    index (agents rg) i = Ret ai ->
    v < 2 ^ len (AgentInfo_beta ai) ->
    Entries rg rules (i + 1) (snd (Rand_Zr s)) es s' ->
    Entries rg (v :: rules) i s
      ({| entry_index := i;
          entry_g2u := G2_pow (g2 (RuleGenerator_sp rg)) (fst (Rand_Zr s));
          entry_f2u := G2_pow (g2alpha ai)
                         (F_scalar (AgentInfo_beta ai) (fst (Rand_Zr s)) v);
          entry_factor := G2_pow (g2gamma ai) (fst (Rand_Zr s)) |} :: es)
      s'.

(** A token with further entries. *)
Definition token_extend (r : RuleToken) (es : list TokenEntry) : RuleToken :=
  {| indices := indices r ++ map entry_index es;
     g2u := g2u r ++ map entry_g2u es;
     f2u := f2u r ++ map entry_f2u es;
     product := fold_left G2_mul (map entry_factor es) (product r) |}.

(** The token that [NewToken] starts from. *)
Definition empty_token : RuleToken :=
  {| indices := []; g2u := []; f2u := []; product := G2_1 |}.

(** A non-negative rule [v] at position [k] that the rule generator can
    serve: there is an agent at [k] and [v] is below [2^len(beta)]. *)
Definition rule_fits (rg : RuleGenerator) (k : Z) (v : Z) : Prop :=
  exists ai, index (agents rg) k = Ret ai /\ v < 2 ^ len (AgentInfo_beta ai).

(** A non-negative rule [v] at position [k] that it cannot serve. *)
Definition rule_misfits (rg : RuleGenerator) (k : Z) (v : Z) : Prop :=
  forall ai, index (agents rg) k = Ret ai -> 2 ^ len (AgentInfo_beta ai) <= v.

(** Two ciphertexts with the same group elements. *)
Definition same_parts (c c' : Ciphertext) : Prop :=
  part1 c = part1 c' /\ part2 c = part2 c'.

End Behaviour.

(** ** Properties of the run-time model *)

Section RuntimeFacts.

Context {A : Type}.

Lemma len_nonneg (l : list A) : 0 <= len l.
Proof. unfold len. lia. Qed.

Lemma len_app (l l' : list A) : len (l ++ l') = len l + len l'.
Proof. unfold len. rewrite length_app. lia. Qed.

Lemma index_Ret (l : list A) (i : Z) (a : A) :
  index l i = Ret a <-> 0 <= i /\ nth_error l (Z.to_nat i) = Some a.
Proof.
  unfold index. destruct (Z.ltb_spec i 0) as [Hneg | Hpos].
  - split; [discriminate | lia].
  - destruct (nth_error l (Z.to_nat i)) as [b |].
    + split.
      * intros E. injection E as ->. split; [lia | reflexivity].
      * intros [_ E]. injection E as ->. reflexivity.
    + split; [discriminate | intros [_ E]; discriminate].
Qed.

Lemma index_in_range (l : list A) (i : Z) :
  0 <= i < len l -> exists a, index l i = Ret a.
Proof.
  intros [Hlo Hhi]. unfold len in Hhi.
  destruct (nth_error l (Z.to_nat i)) as [a |] eqn:E.
  - exists a. apply index_Ret. split; assumption.
  - apply nth_error_None in E. lia.
Qed.

Lemma index_out_of_range (l : list A) (i : Z) :
  ~ (0 <= i < len l) -> index l i = Panic (IndexOutOfRange i (len l)).
Proof.
  intros Hout. unfold index. destruct (Z.ltb_spec i 0) as [Hneg | Hpos].
  - reflexivity.
  - destruct (nth_error l (Z.to_nat i)) as [a |] eqn:E; [| reflexivity].
    exfalso. apply Hout. split; [assumption |].
    assert (Hlt : (Z.to_nat i < List.length l)%nat)
      by (apply nth_error_Some; congruence).
    unfold len. lia.
Qed.

Lemma index_Ret_range (l : list A) (i : Z) (a : A) :
  index l i = Ret a -> 0 <= i < len l.
Proof.
  intros E. apply index_Ret in E as [Hlo E]. split; [assumption |].
  assert (Hlt : (Z.to_nat i < List.length l)%nat)
    by (apply nth_error_Some; congruence).
  unfold len. lia.
Qed.

Lemma index_nth (l : list A) (i : nat) (d : A) :
  (i < List.length l)%nat -> index l (Z.of_nat i) = Ret (nth i l d).
Proof.
  intros Hlt. apply index_Ret. split; [lia |].
  rewrite Nat2Z.id. apply nth_error_nth'. assumption.
Qed.

Lemma index_app_l (l l' : list A) (i : Z) (a : A) :
  index l i = Ret a -> index (l ++ l') i = Ret a.
Proof.
  intros E. pose proof (index_Ret_range _ _ _ E) as Hr.
  apply index_Ret in E as [Hlo E]. apply index_Ret. split; [assumption |].
  rewrite nth_error_app1; [assumption |]. unfold len in Hr. lia.
Qed.

Lemma index_app_last (l : list A) (a : A) :
  index (l ++ [a]) (len l) = Ret a.
Proof.
  apply index_Ret. split; [apply len_nonneg |].
  unfold len. rewrite Nat2Z.id, nth_error_app2 by lia.
  rewrite Nat.sub_diag. reflexivity.
Qed.

End RuntimeFacts.

Lemma bind_Ret {A B : Type} (m : Outcome A) (k : A -> Outcome B) (b : B) :
  bind m k = Ret b -> exists a, m = Ret a /\ k a = Ret b.
Proof.
  destruct m as [a | p]; simpl; intros E; [| discriminate].
  exists a. split; [reflexivity | assumption].
Qed.

Lemma not_index_panic_Ret {A : Type} (a : A) : ~ index_panic (Ret a).
Proof. intros (i & n & E). discriminate. Qed.

(** A non-negative integer has a set bit at or above position [n] exactly
    when it is at least [2^n]. *)
Lemma high_bit_iff (x n : Z) :
  0 <= x -> 0 <= n ->
  (exists i, n <= i /\ Z.testbit x i = true) <-> 2 ^ n <= x.
Proof.
  intros Hx Hn. split.
  - intros (i & Hi & Hbit).
    destruct (Z.eq_dec x 0) as [-> | Hnz].
    + rewrite Z.bits_0 in Hbit. discriminate.
    + destruct (Z.lt_ge_cases x (2 ^ n)) as [Hlt | Hge]; [| assumption].
      exfalso. apply Z.log2_lt_pow2 in Hlt; [| lia].
      rewrite Z.bits_above_log2 in Hbit; [discriminate | lia | lia].
  - intros Hge. exists (Z.log2 x).
    assert (Hpos : 0 < x) by (pose proof (Z.pow_pos_nonneg 2 n); lia).
    split.
    + apply Z.log2_le_pow2; assumption.
    + apply Z.bit_log2. assumption.
Qed.

Lemma low_bits_iff (x n : Z) :
  0 <= x -> 0 <= n ->
  (forall i, Z.testbit x i = true -> i < n) <-> x < 2 ^ n.
Proof.
  intros Hx Hn. split.
  - intros Hbits. destruct (Z.lt_ge_cases x (2 ^ n)) as [Hlt | Hge]; [assumption |].
    apply high_bit_iff in Hge as (i & Hi & Hbit); [| assumption | assumption].
    apply Hbits in Hbit. lia.
  - intros Hlt i Hbit. destruct (Z.lt_ge_cases i n) as [Hi | Hi]; [assumption |].
    exfalso. assert (Hge : 2 ^ n <= x)
      by (apply high_bit_iff; [assumption | assumption | exists i; split; assumption]).
    lia.
Qed.

(** ** The pseudorandom function [F] *)

Section FFacts.

Context {P : Pairing}.

Lemma rem2_pos (p : positive) :
  Z.rem (Zpos p) 2 = if Z.odd (Zpos p) then 1 else 0.
Proof.
  rewrite Z.rem_mod_nonneg by lia. apply Zmod_odd.
Qed.

(** The loop of [F] as the program writes it: while [x > 0], multiply
    [beta[i]] in when [x%2 == 1], then step to [i+1] and [x>>1]. *)
Lemma F_for_unfold (beta : list Zr) (x i : Z) (br : Zr) :
  F_for beta x i br =
  if x >? 0 then
    if Z.rem x 2 =? 1 then
      b <- index beta i ;; F_for beta (Z.shiftr x 1) (i + 1) (Zr_mul br b)
    else F_for beta (Z.shiftr x 1) (i + 1) br
  else Ret br.
Proof.
  destruct x as [| p | p]; try reflexivity.
  change (Zpos p >? 0) with true. cbv iota.
  rewrite rem2_pos. destruct p as [p' | p' | ]; reflexivity.
Qed.

Lemma pow2_split (m : Z) : 1 <= m -> 2 ^ m = 2 * 2 ^ (m - 1).
Proof.
  intros Hm. replace m with (Z.succ (m - 1)) at 1 by lia.
  apply Z.pow_succ_r. lia.
Qed.

Lemma pow2_le_0 (m : Z) : m <= 0 -> 2 ^ m <= 1.
Proof.
  intros Hm. destruct (Z.eq_dec m 0) as [-> | Hneq].
  - simpl. lia.
  - rewrite Z.pow_neg_r by lia. lia.
Qed.

Lemma pow2_ge_2 (m : Z) : 1 <= m -> 2 <= 2 ^ m.
Proof.
  intros Hm. rewrite pow2_split by assumption.
  assert (0 < 2 ^ (m - 1)) by (apply Z.pow_pos_nonneg; lia). lia.
Qed.

(** Below [2^(len beta - i)] the loop never leaves [beta]. *)
Lemma F_loop_returns (beta : list Zr) (p : positive) :
  forall (i : Z) (br : Zr),
    0 <= i -> Zpos p < 2 ^ (len beta - i) ->
    returns (F_loop beta p i br).
Proof.
  induction p as [p' IH | p' IH | ]; intros i br Hi Hlt.
  - assert (Hm : 1 <= len beta - i).
    { destruct (Z.lt_ge_cases (len beta - i) 1) as [Hsmall | Hbig]; [| assumption].
      pose proof (pow2_le_0 (len beta - i)). lia. }
    destruct (index_in_range beta i) as [b Eb]; [lia |].
    simpl. rewrite Eb. simpl. apply IH; [lia |].
    rewrite pow2_split in Hlt by assumption.
    replace (len beta - (i + 1)) with (len beta - i - 1) by lia. lia.
  - assert (Hm : 1 <= len beta - i).
    { destruct (Z.lt_ge_cases (len beta - i) 1) as [Hsmall | Hbig]; [| assumption].
      pose proof (pow2_le_0 (len beta - i)). lia. }
    simpl. apply IH; [lia |].
    rewrite pow2_split in Hlt by assumption.
    replace (len beta - (i + 1)) with (len beta - i - 1) by lia. lia.
  - assert (Hm : 1 <= len beta - i).
    { destruct (Z.lt_ge_cases (len beta - i) 1) as [Hsmall | Hbig]; [| assumption].
      pose proof (pow2_le_0 (len beta - i)). lia. }
    destruct (index_in_range beta i) as [b Eb]; [lia |].
    simpl. rewrite Eb. simpl. eexists. reflexivity.
Qed.

(** From [2^(len beta - i)] on the loop reads [beta] out of range. *)
Lemma F_loop_panics (beta : list Zr) (p : positive) :
  forall (i : Z) (br : Zr),
    0 <= i -> 2 ^ (len beta - i) <= Zpos p ->
    index_panic (F_loop beta p i br).
Proof.
  induction p as [p' IH | p' IH | ]; intros i br Hi Hge.
  - simpl. destruct (Z.lt_ge_cases i (len beta)) as [Hin | Hout].
    + destruct (index_in_range beta i) as [b Eb]; [lia |].
      rewrite Eb. simpl. apply IH; [lia |].
      rewrite pow2_split in Hge by lia.
      replace (len beta - (i + 1)) with (len beta - i - 1) by lia. lia.
    + rewrite index_out_of_range by lia. simpl.
      eexists _, _. reflexivity.
  - simpl. apply IH; [lia |].
    destruct (Z.lt_ge_cases i (len beta)) as [Hin | Hout].
    + rewrite pow2_split in Hge by lia.
      replace (len beta - (i + 1)) with (len beta - i - 1) by lia. lia.
    + rewrite Z.pow_neg_r by lia. lia.
  - simpl. destruct (Z.lt_ge_cases i (len beta)) as [Hin | Hout].
    + pose proof (pow2_ge_2 (len beta - i)). lia.
    + rewrite index_out_of_range by lia. simpl.
      eexists _, _. reflexivity.
Qed.

Lemma F_for_returns (beta : list Zr) (x : Z) (br : Zr) :
  x < 2 ^ len beta -> returns (F_for beta x 0 br).
Proof.
  intros Hlt. destruct x as [| p | p]; simpl; try (eexists; reflexivity).
  apply F_loop_returns; [lia |]. rewrite Z.sub_0_r. assumption.
Qed.

Lemma F_for_panics (beta : list Zr) (x : Z) (br : Zr) :
  2 ^ len beta <= x -> index_panic (F_for beta x 0 br).
Proof.
  intros Hge.
  assert (Hpos : 0 < 2 ^ len beta) by (apply Z.pow_pos_nonneg; [lia | apply len_nonneg]).
  destruct x as [| p | p]; try lia.
  simpl. apply F_loop_panics; [lia |]. rewrite Z.sub_0_r. assumption.
Qed.

(** The outcome of the loop decides that of [F] when the base is in the
    group that [group] selects. *)
Lemma F_G1 (sp : SystemParameters) (x : G1) (beta : list Zr) (aux : Zr) (input : Z) :
  F sp 1 (InG1 x) beta aux input =
  br <- F_for beta input 0 Zr_1 ;; Ret (InG1 (G1_pow x (Zr_mul br aux))).
Proof.
  unfold F. destruct (F_for beta input 0 Zr_1); reflexivity.
Qed.

Lemma F_G2 (sp : SystemParameters) (y : G2) (beta : list Zr) (aux : Zr) (input : Z) :
  F sp 2 (InG2 y) beta aux input =
  br <- F_for beta input 0 Zr_1 ;; Ret (InG2 (G2_pow y (Zr_mul br aux))).
Proof.
  unfold F. destruct (F_for beta input 0 Zr_1); reflexivity.
Qed.

(** An index panic of [F] is one of its loop, whatever the group. *)
Lemma F_index_panic (sp : SystemParameters) (group : Z) (base : Element)
    (beta : list Zr) (aux : Zr) (input : Z) :
  index_panic (F sp group base beta aux input) <->
  index_panic (F_for beta input 0 Zr_1).
Proof.
  unfold F. destruct (F_for beta input 0 Zr_1) as [br | pv]; simpl.
  - split; intros Hp; [exfalso | exfalso; exact (not_index_panic_Ret _ Hp)].
    destruct Hp as (i & n & E).
    destruct group as [| [ [] | [] | ] | ]; simpl in E; try discriminate;
      destruct base; simpl in E; discriminate.
  - split; intros (i & n & E); exists i, n; congruence.
Qed.

End FFacts.

Section FScalar.

Context {P : Pairing}.

Lemma F_step_fold_clear (beta : list Zr) (input : Z) (n : nat) :
  forall (i : nat) (br : Zr),
    (forall k, (i <= k)%nat -> Z.testbit input (Z.of_nat k) = false) ->
    fold_left (F_step beta input) (seq i n) br = br.
Proof.
  induction n as [| n IH]; intros i br Hclear; [reflexivity |].
  simpl. unfold F_step at 2. rewrite Hclear by lia.
  apply IH. intros k Hk. apply Hclear. lia.
Qed.

Lemma testbit_xI_succ (p : positive) (k : Z) :
  0 <= k -> Z.testbit (Zpos p~1) (k + 1) = Z.testbit (Zpos p) k.
Proof.
  intros Hk. rewrite Pos2Z.inj_xI, Z.add_1_r. apply Z.testbit_odd_succ. assumption.
Qed.

Lemma testbit_xO_succ (p : positive) (k : Z) :
  0 <= k -> Z.testbit (Zpos p~0) (k + 1) = Z.testbit (Zpos p) k.
Proof.
  intros Hk. rewrite Pos2Z.inj_xO, Z.add_1_r. apply Z.testbit_even_succ. assumption.
Qed.

Lemma testbit_1_succ (k : Z) : 0 <= k -> Z.testbit 1 (k + 1) = false.
Proof.
  intros Hk. rewrite Z.add_1_r. change 1 with (2 * 0 + 1) at 1.
  rewrite Z.testbit_odd_succ by assumption. apply Z.bits_0.
Qed.

(** With [x] the part of [input] above position [i], the loop multiplies in
    the entries of [beta] that the specification names. *)
Lemma F_loop_scalar (beta : list Zr) (input : Z) (p : positive) :
  forall (i : nat) (br : Zr),
    (forall k, 0 <= k -> Z.testbit (Zpos p) k = Z.testbit input (Z.of_nat i + k)) ->
    Zpos p < 2 ^ (len beta - Z.of_nat i) ->
    F_loop beta p (Z.of_nat i) br =
    Ret (fold_left (F_step beta input) (seq i (List.length beta - i)) br).
Proof.
  induction p as [p' IH | p' IH | ]; intros i br Hbits Hlt;
    assert (Hm : 1 <= len beta - Z.of_nat i)
      by (destruct (Z.lt_ge_cases (len beta - Z.of_nat i) 1) as [Hsmall | Hbig];
          [pose proof (pow2_le_0 (len beta - Z.of_nat i)); lia | assumption]);
    assert (Hi : (i < List.length beta)%nat) by (unfold len in Hm; lia);
    replace (List.length beta - i)%nat with (S (List.length beta - S i)) by lia;
    pose proof (Hbits 0 (Z.le_refl 0)) as Hbit0; rewrite Z.add_0_r in Hbit0;
    cbn [seq fold_left]; unfold F_step at 2; rewrite <- Hbit0; cbn [F_loop].
  - change (Z.testbit (Zpos p'~1) 0) with true. cbv iota.
    rewrite (index_nth beta i Zr_1 Hi). cbn [bind].
    replace (Z.of_nat i + 1) with (Z.of_nat (S i)) by lia.
    apply IH.
    + intros k Hk. rewrite <- testbit_xI_succ by assumption.
      rewrite Hbits by lia. f_equal. lia.
    + rewrite pow2_split in Hlt by assumption.
      replace (len beta - Z.of_nat (S i)) with (len beta - Z.of_nat i - 1) by lia. lia.
  - change (Z.testbit (Zpos p'~0) 0) with false. cbv iota.
    replace (Z.of_nat i + 1) with (Z.of_nat (S i)) by lia.
    apply IH.
    + intros k Hk. rewrite <- testbit_xO_succ by assumption.
      rewrite Hbits by lia. f_equal. lia.
    + rewrite pow2_split in Hlt by assumption.
      replace (len beta - Z.of_nat (S i)) with (len beta - Z.of_nat i - 1) by lia. lia.
  - change (Z.testbit 1 0) with true. cbv iota.
    rewrite (index_nth beta i Zr_1 Hi). cbn [bind].
    f_equal. symmetry. apply F_step_fold_clear.
    intros k Hk. replace (Z.of_nat k) with (Z.of_nat i + (Z.of_nat (k - S i) + 1)) by lia.
    rewrite <- Hbits by lia. apply testbit_1_succ. lia.
Qed.

Lemma F_for_scalar (beta : list Zr) (aux : Zr) (input : Z) :
  0 <= input -> input < 2 ^ len beta ->
  br <- F_for beta input 0 Zr_1 ;; Ret (Zr_mul br aux) = Ret (F_scalar beta aux input).
Proof.
  intros Hpos Hlt. unfold F_scalar. destruct input as [| p | p]; [| | lia].
  - simpl. f_equal. f_equal. symmetry. apply F_step_fold_clear.
    intros k _. apply Z.bits_0.
  - cbn [F_for]. change (F_loop beta p 0 Zr_1) with (F_loop beta p (Z.of_nat 0) Zr_1).
    rewrite (F_loop_scalar beta (Zpos p) p 0 Zr_1).
    + rewrite Nat.sub_0_r. reflexivity.
    + intros k Hk. reflexivity.
    + rewrite Z.sub_0_r. assumption.
Qed.

End FScalar.

Section Forall2Facts.

Context {A B : Type} (R : A -> B -> Prop).

Lemma Forall2_nth_error_l (l : list A) (l' : list B) :
  Forall2 R l l' ->
  forall i a, nth_error l i = Some a -> exists b, nth_error l' i = Some b /\ R a b.
Proof.
  induction 1 as [| x y l l' Hxy _ IH]; intros i a E.
  - destruct i; discriminate.
  - destruct i as [| i]; simpl in *.
    + injection E as <-. exists y. split; [reflexivity | assumption].
    + apply IH. assumption.
Qed.

Lemma Forall2_nth_error_r (l : list A) (l' : list B) :
  Forall2 R l l' ->
  forall i b, nth_error l' i = Some b -> exists a, nth_error l i = Some a /\ R a b.
Proof.
  induction 1 as [| x y l l' Hxy _ IH]; intros i b E.
  - destruct i; discriminate.
  - destruct i as [| i]; simpl in *.
    + injection E as <-. exists x. split; [reflexivity | assumption].
    + apply IH. assumption.
Qed.

End Forall2Facts.

(** ** Key generation *)

Section KeyFacts.

Context {P : Pairing}.

Lemma GenerateKeys_beta_length (count : nat) :
  forall s, List.length (fst (GenerateKeys_beta count s)) = count.
Proof.
  induction count as [| count IH]; intros s; [reflexivity |].
  simpl. destruct (Rand_Zr s) as [b s1]. specialize (IH s1).
  destruct (GenerateKeys_beta count s1) as [bs s2]. simpl in *. lia.
Qed.

Lemma indexed_snoc (as_ : list Agent) (a : Agent) :
  indexed as_ -> Agent_index a = len as_ -> indexed (as_ ++ [a]).
Proof.
  intros Hidx Ha i a' E.
  pose proof (index_Ret_range _ _ _ E) as Hr. rewrite len_app in Hr.
  change (len [a]) with 1 in Hr.
  destruct (Z.eq_dec i (len as_)) as [-> | Hneq].
  - rewrite index_app_last in E. injection E as <-. assumption.
  - destruct (index_in_range as_ i) as [a0 E0]; [lia |].
    rewrite (index_app_l _ _ _ _ E0) in E. injection E as <-.
    apply Hidx. assumption.
Qed.

Lemma GenerateKeys_loop_keys (sk : SetupKey) (b : Z) (count : nat) :
  forall i infos as_ s infos' as_' s',
    GenerateKeys_loop sk b count i infos as_ s = Ret ((infos', as_'), s') ->
    Forall2 (key_pair (SetupKey_sp sk) b) as_ infos ->
    len as_ = i -> indexed as_ ->
    Forall2 (key_pair (SetupKey_sp sk) b) as_' infos' /\
    len as_' = i + Z.of_nat count /\ indexed as_'.
Proof.
  induction count as [| count IH]; intros i infos as_ s infos' as_' s' E Hkeys Hlen Hidx.
  - simpl in E. injection E as <- <- <-. repeat split; [assumption | lia | assumption].
  - cbn [GenerateKeys_loop] in E. destruct (Rand_Zr s) as [alpha s1].
    unfold make in E. destruct (Z.ltb_spec b 0) as [Hneg | Hb]; [discriminate |].
    cbn [bind] in E.
    pose proof (GenerateKeys_beta_length (Z.to_nat b) s1) as Hbeta.
    destruct (GenerateKeys_beta (Z.to_nat b) s1) as [beta s2].
    destruct (Rand_Zr s2) as [gamma s3]. simpl in Hbeta.
    apply IH in E.
    + destruct E as (Hk & Hl & Hi). repeat split; [assumption | lia | assumption].
    + apply Forall2_app; [assumption |]. constructor; [| constructor].
      unfold key_pair; simpl. repeat split.
      * exists alpha. split; reflexivity.
      * unfold len. lia.
    + rewrite len_app. change (len [_]) with 1. lia.
    + apply indexed_snoc; [assumption | simpl; lia].
Qed.

Lemma GenerateKeys_loop_returns (sk : SetupKey) (b : Z) (count : nat) :
  0 <= b ->
  forall i infos as_ s, returns (GenerateKeys_loop sk b count i infos as_ s).
Proof.
  intros Hb. induction count as [| count IH]; intros i infos as_ s.
  - eexists. reflexivity.
  - cbn [GenerateKeys_loop]. destruct (Rand_Zr s) as [alpha s1].
    unfold make. destruct (Z.ltb_spec b 0) as [Hneg | _]; [lia |]. cbn [bind].
    destruct (GenerateKeys_beta (Z.to_nat b) s1) as [beta s2].
    destruct (Rand_Zr s2) as [gamma s3]. apply IH.
Qed.

(** Whatever [GenerateKeys] returns are the keys of [n] agents. *)
Lemma GenerateKeys_keys (sk : SetupKey) (n b : Z) (s : RandState)
    (rg : RuleGenerator) (as_ : list Agent) (s' : RandState) :
  GenerateKeys sk n b s = Ret ((rg, as_), s') ->
  0 <= n /\ keys_of (SetupKey_sp sk) n b rg as_.
Proof.
  unfold GenerateKeys, make. intros E.
  destruct (Z.ltb_spec n 0) as [Hneg | Hn]; [discriminate |]. cbn [bind] in E.
  destruct (GenerateKeys_loop sk b (Z.to_nat n) 0 [] [] s) as [[[infos l] s1] | pv] eqn:El;
    [| discriminate].
  simpl in E. injection E as <- <- <-.
  apply GenerateKeys_loop_keys in El.
  - destruct El as (Hk & Hl & Hi). split; [assumption |].
    unfold keys_of; simpl. repeat split; [assumption | lia | assumption].
  - constructor.
  - reflexivity.
  - intros i a E. unfold index in E. destruct (i <? 0); [discriminate |].
    destruct (Z.to_nat i); discriminate.
Qed.

(** [GenerateKeys] returns for every agent count and bit width that is not
    negative. *)
Lemma GenerateKeys_returns (sk : SetupKey) (n b : Z) (s : RandState) :
  0 <= n -> 0 <= b -> returns (GenerateKeys sk n b s).
Proof.
  intros Hn Hb. unfold GenerateKeys, make.
  destruct (Z.ltb_spec n 0) as [Hneg | _]; [lia |]. cbn [bind].
  destruct (GenerateKeys_loop_returns sk b (Z.to_nat n) Hb 0 [] [] s)
    as [[[infos l] s1] E].
  rewrite E. simpl. eexists. reflexivity.
Qed.

Lemma keys_of_agent (sp : SystemParameters) (n b : Z) (rg : RuleGenerator)
    (as_ : list Agent) (i : Z) (a : Agent) :
  keys_of sp n b rg as_ -> index as_ i = Ret a ->
  exists ai, index (agents rg) i = Ret ai /\ key_pair sp b a ai.
Proof.
  intros (_ & Hk & _ & _) E. apply index_Ret in E as [Hi E].
  destruct (Forall2_nth_error_l _ _ _ Hk _ _ E) as (ai & Eai & Hp).
  exists ai. split; [| assumption]. apply index_Ret. split; assumption.
Qed.

Lemma keys_of_info (sp : SystemParameters) (n b : Z) (rg : RuleGenerator)
    (as_ : list Agent) (i : Z) (ai : AgentInfo) :
  keys_of sp n b rg as_ -> index (agents rg) i = Ret ai ->
  exists a, index as_ i = Ret a /\ key_pair sp b a ai.
Proof.
  intros (_ & Hk & _ & _) E. apply index_Ret in E as [Hi E].
  destruct (Forall2_nth_error_r _ _ _ Hk _ _ E) as (a & Ea & Hp).
  exists a. split; [| assumption]. apply index_Ret. split; assumption.
Qed.

Lemma keys_of_len (sp : SystemParameters) (n b : Z) (rg : RuleGenerator)
    (as_ : list Agent) :
  keys_of sp n b rg as_ -> len (agents rg) = n.
Proof.
  intros (_ & Hk & Hl & _). apply Forall2_length in Hk. unfold len in *. lia.
Qed.

End KeyFacts.

(** ** Encryption and token generation *)

Section SchemeFacts.

Context {P : Pairing}.

Lemma index_cases {A : Type} (l : list A) (i : Z) :
  returns (index l i) \/ index_panic (index l i).
Proof.
  destruct (Z.lt_ge_cases i 0) as [Hneg | Hpos].
  - right. rewrite index_out_of_range by lia. eexists _, _. reflexivity.
  - destruct (Z.lt_ge_cases i (len l)) as [Hin | Hout].
    + left. apply index_in_range. lia.
    + right. rewrite index_out_of_range by lia. eexists _, _. reflexivity.
Qed.

(** The loop of [F] either returns or reads [beta] out of range. *)
Lemma F_for_cases (beta : list Zr) (x : Z) (br : Zr) :
  (x < 2 ^ len beta /\ returns (F_for beta x 0 br)) \/
  (2 ^ len beta <= x /\ index_panic (F_for beta x 0 br)).
Proof.
  destruct (Z.lt_ge_cases x (2 ^ len beta)) as [Hlt | Hge].
  - left. split; [assumption | apply F_for_returns; assumption].
  - right. split; [assumption | apply F_for_panics; assumption].
Qed.

Lemma NewCiphertext_eq (a : Agent) (identifier : string) (plaintext : Z) (s : RandState) :
  NewCiphertext a identifier plaintext s =
  br <- F_for (Agent_beta a) plaintext 0 Zr_1 ;;
  Ret (ciphertext_of a identifier br (fst (Rand_Zr s)), snd (Rand_Zr s)).
Proof.
  unfold NewCiphertext. destruct (Rand_Zr s) as [r s']. rewrite F_G1.
  destruct (F_for (Agent_beta a) plaintext 0 Zr_1); reflexivity.
Qed.

Lemma NewToken_range_nonneg (rg : RuleGenerator) (v : Z) (rules : list Z) (i : Z)
    (r : RuleToken) (s : RandState) :
  0 <= v ->
  NewToken_range rg (v :: rules) i r s =
  ai <- index (agents rg) i ;;
  br <- F_for (AgentInfo_beta ai) v 0 Zr_1 ;;
  NewToken_range rg rules (i + 1)
    (token_snoc (RuleGenerator_sp rg) r i ai br (fst (Rand_Zr s))) (snd (Rand_Zr s)).
Proof.
  intros Hv. cbn [NewToken_range].
  destruct (Z.geb_spec v 0) as [_ | Hneg]; [| lia].
  destruct (Rand_Zr s) as [u s']. destruct (index (agents rg) i) as [ai | pv]; [| reflexivity].
  cbn [bind]. rewrite F_G2.
  destruct (F_for (AgentInfo_beta ai) v 0 Zr_1); reflexivity.
Qed.

Lemma NewToken_range_wildcard (rg : RuleGenerator) (v : Z) (rules : list Z) (i : Z)
    (r : RuleToken) (s : RandState) :
  v < 0 ->
  NewToken_range rg (v :: rules) i r s = NewToken_range rg rules (i + 1) r s.
Proof.
  intros Hv. cbn [NewToken_range].
  destruct (Z.geb_spec v 0) as [Hpos | _]; [lia | reflexivity].
Qed.

Lemma token_wf_snoc (sp : SystemParameters) (r : RuleToken) (i : Z) (ai : AgentInfo)
    (br u : Zr) :
  token_wf r -> token_wf (token_snoc sp r i ai br u).
Proof.
  intros [Hg Hf]. unfold token_wf; simpl. rewrite !length_app. simpl. lia.
Qed.

(** What a returned token lists: the non-negative positions, in order. *)
Lemma NewToken_range_indices (rg : RuleGenerator) (rules : list Z) :
  forall i r s r' s',
    NewToken_range rg rules i r s = Ret (r', s') ->
    indices r' = indices r ++ nonneg_positions rules i /\
    (token_wf r -> token_wf r').
Proof.
  induction rules as [| v rules IH]; intros i r s r' s' E.
  - simpl in E. injection E as <- <-. simpl. rewrite app_nil_r. split; auto.
  - destruct (Z.lt_ge_cases v 0) as [Hneg | Hpos].
    + rewrite NewToken_range_wildcard in E by assumption.
      apply IH in E. simpl. destruct (Z.geb_spec v 0); [lia | assumption].
    + rewrite NewToken_range_nonneg in E by assumption.
      apply bind_Ret in E as (ai & _ & E). apply bind_Ret in E as (br & _ & E).
      apply IH in E as [Ei Hwf]. simpl in Ei. rewrite <- app_assoc in Ei. simpl in Ei.
      simpl. destruct (Z.geb_spec v 0); [| lia]. split; [assumption |].
      intros Hr. apply Hwf, token_wf_snoc, Hr.
Qed.

(** A returned token lists positions of known agents only. *)
Lemma NewToken_range_in_range (rg : RuleGenerator) (rules : list Z) :
  forall i r s r' s',
    NewToken_range rg rules i r s = Ret (r', s') ->
    Forall (fun j => 0 <= j < len (agents rg)) (nonneg_positions rules i).
Proof.
  induction rules as [| v rules IH]; intros i r s r' s' E; [constructor |].
  destruct (Z.lt_ge_cases v 0) as [Hneg | Hpos].
  - rewrite NewToken_range_wildcard in E by assumption.
    simpl. destruct (Z.geb_spec v 0); [lia |]. apply (IH _ _ _ _ _ E).
  - rewrite NewToken_range_nonneg in E by assumption.
    apply bind_Ret in E as (ai & Eai & E). apply bind_Ret in E as (br & _ & E).
    simpl. destruct (Z.geb_spec v 0); [| lia]. constructor.
    + apply (index_Ret_range _ _ _ Eai).
    + apply (IH _ _ _ _ _ E).
Qed.

Lemma In_nonneg_positions (rules : list Z) :
  forall i0 i,
    In i (nonneg_positions rules i0) <->
    exists k v, i = i0 + Z.of_nat k /\ nth_error rules k = Some v /\ 0 <= v.
Proof.
  induction rules as [| v0 rules IH]; intros i0 i.
  - simpl. split; [intros [] | intros (k & v & _ & E & _); destruct k; discriminate].
  - assert (Htail : In i (nonneg_positions rules (i0 + 1)) <->
                    exists k v, i = i0 + Z.of_nat (S k) /\ nth_error rules k = Some v /\ 0 <= v).
    { rewrite IH. split; intros (k & v & Ei & E & Hv); exists k, v;
        (split; [lia | split; assumption]). }
    simpl. destruct (Z.geb_spec v0 0) as [Hpos | Hneg].
    + simpl. rewrite Htail. split.
      * intros [<- | (k & v & Ei & E & Hv)].
        -- exists 0%nat, v0. repeat split; [lia | lia].
        -- exists (S k), v. repeat split; assumption.
      * intros (k & v & Ei & E & Hv). destruct k as [| k].
        -- left. lia.
        -- right. exists k, v. repeat split; assumption.
    + rewrite Htail. split.
      * intros (k & v & Ei & E & Hv). exists (S k), v. repeat split; assumption.
      * intros (k & v & Ei & E & Hv). destruct k as [| k].
        -- simpl in E. injection E as ->. lia.
        -- exists k, v. repeat split; assumption.
Qed.

(** The loop returns when every non-negative rule sits at the position of
    a known agent and fits the agent's [beta]. *)
Lemma NewToken_range_returns (rg : RuleGenerator) (rules : list Z) :
  forall i r s,
    (forall k v, nth_error rules k = Some v -> 0 <= v ->
       exists ai, index (agents rg) (i + Z.of_nat k) = Ret ai /\
                  v < 2 ^ len (AgentInfo_beta ai)) ->
    returns (NewToken_range rg rules i r s).
Proof.
  induction rules as [| v rules IH]; intros i r s Hfit.
  - eexists. reflexivity.
  - assert (Hrest : forall k v', nth_error rules k = Some v' -> 0 <= v' ->
              exists ai, index (agents rg) (i + 1 + Z.of_nat k) = Ret ai /\
                         v' < 2 ^ len (AgentInfo_beta ai)).
    { intros k v' E Hv'. destruct (Hfit (S k) v' E Hv') as (ai & Eai & Hlt).
      exists ai. split; [| assumption]. rewrite <- Eai. f_equal. lia. }
    destruct (Z.lt_ge_cases v 0) as [Hneg | Hpos].
    + rewrite NewToken_range_wildcard by assumption. apply IH. assumption.
    + rewrite NewToken_range_nonneg by assumption.
      destruct (Hfit 0%nat v eq_refl Hpos) as (ai & Eai & Hlt).
      rewrite Z.add_0_r in Eai. rewrite Eai. cbn [bind].
      destruct (F_for_returns (AgentInfo_beta ai) v Zr_1 Hlt) as [br Ebr].
      rewrite Ebr. cbn [bind]. apply IH. assumption.
Qed.

(** The loop panics on an index as soon as some non-negative rule sits
    beyond the known agents or does not fit its agent's [beta]. *)
Lemma NewToken_range_panics (rg : RuleGenerator) (rules : list Z) :
  forall i r s k v,
    nth_error rules k = Some v -> 0 <= v ->
    (forall ai, index (agents rg) (i + Z.of_nat k) = Ret ai ->
                2 ^ len (AgentInfo_beta ai) <= v) ->
    index_panic (NewToken_range rg rules i r s).
Proof.
  induction rules as [| v0 rules IH]; intros i r s k v E Hv Hbad.
  - destruct k; discriminate.
  - assert (Hrest : forall k', k = S k' -> forall r' s',
              index_panic (NewToken_range rg rules (i + 1) r' s')).
    { intros k' -> r' s'. apply (IH _ _ _ k' v); [assumption | assumption |].
      intros ai Eai. apply Hbad. rewrite <- Eai. f_equal. lia. }
    destruct (Z.lt_ge_cases v0 0) as [Hneg | Hpos].
    + rewrite NewToken_range_wildcard by assumption.
      destruct k as [| k']; [simpl in E; injection E as ->; lia |].
      apply (Hrest k' eq_refl).
    + rewrite NewToken_range_nonneg by assumption.
      destruct (index_cases (agents rg) i) as [[ai Eai] | (j & n & Ep)];
        [| rewrite Ep; eexists _, _; reflexivity].
      rewrite Eai. cbn [bind].
      destruct (F_for_cases (AgentInfo_beta ai) v0 Zr_1)
        as [[_ [br Ebr]] | [_ (j & n & Ep)]];
        [| rewrite Ep; eexists _, _; reflexivity].
      rewrite Ebr. cbn [bind]. destruct k as [| k'].
      * simpl in E. injection E as ->. rewrite Z.add_0_r in Hbad.
        specialize (Hbad ai Eai).
        destruct (F_for_panics (AgentInfo_beta ai) v Zr_1 Hbad) as (j & n & Ep).
        congruence.
      * apply (Hrest k' eq_refl).
Qed.

End SchemeFacts.

(** ** The test of the alarm system *)

Section TestFacts.

Context {P : Pairing}.

Lemma Test_parts_selected (ct : list Ciphertext) (idx : list Z) :
  forall parts1 parts2,
    Test_parts ct idx = Ret (parts1, parts2) <->
    exists cs, selected ct idx cs /\ parts1 = map part1 cs /\ parts2 = map part2 cs.
Proof.
  unfold selected. induction idx as [| v idx IH]; intros parts1 parts2.
  - simpl. split.
    + intros E. injection E as <- <-. exists []. repeat split. constructor.
    + intros (cs & Hsel & -> & ->). inversion Hsel. reflexivity.
  - cbn [Test_parts]. split.
    + intros E. apply bind_Ret in E as (c & Ec & E).
      apply bind_Ret in E as ([q1 q2] & Eq & E). injection E as <- <-.
      apply IH in Eq as (cs & Hsel & -> & ->).
      exists (c :: cs). repeat split. constructor; assumption.
    + intros (cs & Hsel & -> & ->). inversion Hsel as [| v' c idx' cs' Ec Hsel' ]; subst.
      rewrite Ec. cbn [bind].
      assert (Eq : Test_parts ct idx = Ret (map part1 cs', map part2 cs'))
        by (apply IH; exists cs'; repeat split; assumption).
      rewrite Eq. reflexivity.
Qed.

Lemma selected_exists (ct : list Ciphertext) (idx : list Z) :
  (forall v, In v idx -> 0 <= v < len ct) -> exists cs, selected ct idx cs.
Proof.
  unfold selected. induction idx as [| v idx IH]; intros Hvalid.
  - exists []. constructor.
  - destruct (index_in_range ct v) as [c Ec]; [apply Hvalid; left; reflexivity |].
    destruct IH as [cs Hsel]; [intros v' Hin; apply Hvalid; right; assumption |].
    exists (c :: cs). constructor; assumption.
Qed.

Lemma selected_length (ct : list Ciphertext) (idx : list Z) (cs : list Ciphertext) :
  selected ct idx cs -> List.length cs = List.length idx.
Proof. intros Hsel. symmetry. exact (Forall2_length Hsel). Qed.

(** The gathering loop panics at the first index that is not valid: the
    indices before it are all valid, and the panic names it. *)
Lemma Test_parts_first_missing (ct : list Ciphertext) (idx : list Z) :
  (exists v, In v idx /\ ~ (0 <= v < len ct)) ->
  exists pre v post,
    idx = pre ++ v :: post /\
    (forall w, In w pre -> 0 <= w < len ct) /\
    ~ (0 <= v < len ct) /\
    Test_parts ct idx = Panic (IndexOutOfRange v (len ct)).
Proof.
  induction idx as [| v0 idx IH]; intros (v & Hin & Hbad); [destruct Hin |].
  cbn [Test_parts].
  destruct (Z.lt_ge_cases v0 0) as [Hneg | Hpos];
    [| destruct (Z.lt_ge_cases v0 (len ct)) as [Hlt | Hge]].
  - exists [], v0, idx. split; [reflexivity |]. split; [intros w [] |].
    split; [lia |]. rewrite index_out_of_range by lia. reflexivity.
  - destruct (index_in_range ct v0) as [c Ec]; [lia |].
    destruct Hin as [-> | Hin]; [lia |].
    destruct IH as (pre & v' & post & Eidx & Hpre & Hbad' & E');
      [exists v; split; assumption |].
    exists (v0 :: pre), v', post. split; [rewrite Eidx; reflexivity |].
    split; [intros w [<- | Hw]; [lia | apply Hpre; assumption] |].
    split; [assumption |]. rewrite Ec, E'. reflexivity.
  - exists [], v0, idx. split; [reflexivity |]. split; [intros w [] |].
    split; [lia |]. rewrite index_out_of_range by lia. reflexivity.
Qed.

(** The test on the ciphertexts found at the included indices. *)
Lemma Test_selected (as_ : AlarmSystem) (ct cs : list Ciphertext) :
  token_wf (rt as_) -> selected ct (indices (rt as_)) cs ->
  Test as_ ct =
  Ret (Equals (GT_mul (prod_pairings (map part1 cs) (f2u (rt as_)))
                      (Pair (hID as_) (product (rt as_))))
              (prod_pairings (map part2 cs) (g2u (rt as_)))).
Proof.
  intros [Hg Hf] Hsel. pose proof (selected_length _ _ _ Hsel) as Hlen.
  unfold Test.
  assert (E : Test_parts ct (indices (rt as_)) = Ret (map part1 cs, map part2 cs))
    by (apply Test_parts_selected; exists cs; repeat split; assumption).
  rewrite E. cbn [bind]. unfold ProdPairSlice, len. rewrite !length_map.
  rewrite Hlen, Hg, Hf, Z.eqb_refl. reflexivity.
Qed.

(** The outcome of the test is read off the ciphertexts at the included
    indices alone. *)
Lemma Test_parts_agree (ct ct' : list Ciphertext) (idx : list Z) :
  (forall v, In v idx -> nth_error ct (Z.to_nat v) = nth_error ct' (Z.to_nat v)) ->
  forall parts, Test_parts ct idx = Ret parts -> Test_parts ct' idx = Ret parts.
Proof.
  induction idx as [| v idx IH]; intros Hagree parts E; [assumption |].
  cbn [Test_parts] in *. apply bind_Ret in E as (c & Ec & E).
  apply bind_Ret in E as (q & Eq & E).
  assert (Ec' : index ct' v = Ret c).
  { apply index_Ret in Ec as [Hv Ec]. apply index_Ret. split; [assumption |].
    rewrite <- (Hagree v) by (left; reflexivity). assumption. }
  rewrite Ec'. cbn [bind].
  rewrite (IH (fun v' Hin => Hagree v' (or_intror Hin)) q Eq). exact E.
Qed.

Lemma Test_agree (as_ : AlarmSystem) (ct ct' : list Ciphertext) :
  (forall v, In v (indices (rt as_)) ->
             nth_error ct (Z.to_nat v) = nth_error ct' (Z.to_nat v)) ->
  forall result, Test as_ ct = Ret result -> Test as_ ct' = Ret result.
Proof.
  intros Hagree result E. unfold Test in *.
  apply bind_Ret in E as (parts & Eparts & E).
  rewrite (Test_parts_agree ct ct' _ Hagree parts Eparts). exact E.
Qed.

End TestFacts.

(** ** Correctness of the scheme *)

Section Correctness.

Context {P : Pairing} {L : PairingLaws P}.

Lemma GT_mul_1_l (x : GT) : GT_mul GT_1 x = x.
Proof. rewrite GT_mul_comm. apply GT_mul_1_r. Qed.

Lemma prod_pairings_snoc (xs : list G1) :
  forall (ys : list G2) (x : G1) (y : G2),
    List.length xs = List.length ys ->
    prod_pairings (xs ++ [x]) (ys ++ [y]) = GT_mul (prod_pairings xs ys) (Pair x y).
Proof.
  induction xs as [| a xs IH]; intros [| b ys] x y Hlen; try discriminate.
  - simpl. rewrite GT_mul_1_r, GT_mul_1_l. reflexivity.
  - simpl. rewrite IH by (simpl in Hlen; lia). apply GT_mul_assoc.
Qed.

(** One entry of a token against the ciphertext of the same agent and value:
    the pairing of [part2] with [g2^u] is that of [part1] with the entry of
    [f2u], times the pairing of the identifier hash with [(g2^gamma)^u]. *)
Lemma entry_balance (sp : SystemParameters) (b : Z) (a : Agent) (ai : AgentInfo)
    (identifier : string) (br r u : Zr) :
  key_pair sp b a ai ->
  Pair (part2 (ciphertext_of a identifier br r)) (G2_pow (g2 sp) u) =
  GT_mul (Pair (part1 (ciphertext_of a identifier br r))
               (G2_pow (g2alpha ai) (Zr_mul br u)))
         (Pair (SetFromStringHash identifier sha256_New) (G2_pow (g2gamma ai) u)).
Proof.
  intros (Hsp & (alpha & Ha1 & Ha2) & _ & _ & Hgamma). simpl.
  rewrite Hsp, Ha1, Ha2, Hgamma, Pair_mul_l.
  rewrite !Pair_pow_l, !Pair_pow_r, !GT_pow_pow.
  f_equal; f_equal.
  - rewrite (Zr_mul_comm u), <- Zr_mul_assoc. f_equal.
    rewrite <- !Zr_mul_assoc. f_equal. apply Zr_mul_comm.
  - apply Zr_mul_comm.
Qed.

Lemma balanced_empty (h : G1) :
  balanced h {| indices := []; g2u := []; f2u := []; product := G2_1 |} [].
Proof.
  unfold balanced; simpl. repeat split. rewrite Pair_1_r. apply GT_mul_1_r.
Qed.

Lemma balanced_snoc (sp : SystemParameters) (identifier : string) (r : RuleToken)
    (cs : list Ciphertext) (i : Z) (ai : AgentInfo) (br u : Zr) (v : Z) (c : Ciphertext)
    (a : Agent) (b : Z) (rr : Zr) :
  key_pair sp b a ai -> c = ciphertext_of a identifier br rr ->
  balanced (SetFromStringHash identifier sha256_New) r cs ->
  balanced (SetFromStringHash identifier sha256_New) (token_snoc sp r i ai br u) (cs ++ [c]).
Proof.
  intros Hkeys Hc (Hf & Hg & Hbal).
  pose proof (entry_balance sp b a ai identifier br rr u Hkeys) as Hentry.
  rewrite <- Hc in Hentry. clear Hc.
  unfold balanced, token_snoc; simpl.
  rewrite !length_app, !map_app. simpl. repeat split; [lia | lia |].
  rewrite !prod_pairings_snoc by (rewrite length_map; lia).
  rewrite Hentry, <- Hbal, Pair_mul_r.
  set (x := prod_pairings (map part1 cs) (f2u r)).
  set (y := Pair (part1 c) _).
  set (z := Pair _ (product r)). set (w := Pair _ (G2_pow (g2gamma ai) u)).
  rewrite <- !GT_mul_assoc. f_equal.
  rewrite !GT_mul_assoc. rewrite (GT_mul_comm y z). reflexivity.
Qed.

(** The loop of [NewToken] keeps the two sides of the test in balance when
    every non-negative rule meets a ciphertext of the same value. *)
Lemma NewToken_range_balanced (rg : RuleGenerator) (identifier : string)
    (cts : list Ciphertext) (rules : list Z) :
  forall i r s cs,
    (forall k v, nth_error rules k = Some v -> 0 <= v ->
       exists ai c, index (agents rg) (i + Z.of_nat k) = Ret ai /\
                    index cts (i + Z.of_nat k) = Ret c /\
                    encrypts (RuleGenerator_sp rg) identifier ai v c) ->
    selected cts (indices r) cs ->
    balanced (SetFromStringHash identifier sha256_New) r cs ->
    exists r' s' cs',
      NewToken_range rg rules i r s = Ret (r', s') /\
      selected cts (indices r') cs' /\
      balanced (SetFromStringHash identifier sha256_New) r' cs'.
Proof.
  induction rules as [| v rules IH]; intros i r s cs Hmeet Hsel Hbal.
  - exists r, s, cs. split; [reflexivity | split; assumption].
  - assert (Hrest : forall k v', nth_error rules k = Some v' -> 0 <= v' ->
              exists ai c, index (agents rg) (i + 1 + Z.of_nat k) = Ret ai /\
                           index cts (i + 1 + Z.of_nat k) = Ret c /\
                           encrypts (RuleGenerator_sp rg) identifier ai v' c).
    { intros k v' E Hv'. destruct (Hmeet (S k) v' E Hv') as (ai & c & Eai & Ec & Henc).
      exists ai, c. replace (i + 1 + Z.of_nat k) with (i + Z.of_nat (S k)) by lia.
      split; [assumption | split; assumption]. }
    destruct (Z.lt_ge_cases v 0) as [Hneg | Hpos].
    + rewrite NewToken_range_wildcard by assumption. apply (IH _ _ _ cs); assumption.
    + rewrite NewToken_range_nonneg by assumption.
      destruct (Hmeet 0%nat v eq_refl Hpos) as (ai & c & Eai & Ec & Henc).
      rewrite Z.add_0_r in Eai, Ec. rewrite Eai. cbn [bind].
      destruct Henc as (a & b & br & rr & Hkeys & Ebr & Hc).
      assert (Hbeta : AgentInfo_beta ai = Agent_beta a) by apply Hkeys.
      rewrite Hbeta, Ebr. cbn [bind].
      apply IH with (cs := cs ++ [c]).
      * assumption.
      * apply Forall2_app; [assumption |]. constructor; [assumption | constructor].
      * apply (balanced_snoc _ _ _ _ _ _ _ _ v c a b rr); assumption.
Qed.

Lemma Encryptions_nth (identifier : string) (as_ : list Agent) (vs : list Z)
    (cts : list Ciphertext) :
  Encryptions identifier as_ vs cts ->
  forall k v, nth_error vs k = Some v ->
    exists a c s s', nth_error as_ k = Some a /\ nth_error cts k = Some c /\
                     NewCiphertext a identifier v s = Ret (c, s').
Proof.
  induction 1 as [| a v0 c s s' as_ vs cs E _ IH]; intros k v Ek.
  - destruct k; discriminate.
  - destruct k as [| k]; simpl in Ek.
    + injection Ek as ->. exists a, c, s, s'. repeat split. assumption.
    + destruct (IH k v Ek) as (a' & c' & t & t' & Ea & Ec & E').
      exists a', c', t, t'. repeat split; assumption.
Qed.

Lemma Encryptions_length (identifier : string) (as_ : list Agent) (vs : list Z)
    (cts : list Ciphertext) :
  Encryptions identifier as_ vs cts ->
  List.length vs = List.length as_ /\ List.length cts = List.length as_.
Proof.
  induction 1 as [| a v0 c s s' as_ vs cs E _ [IHv IHc]]; simpl; split; lia.
Qed.

(** Every agent encrypts a value below [2^b], from whatever randomness. *)
Lemma Encryptions_exist (sp : SystemParameters) (b : Z) (identifier : string)
    (s : RandState) (as_ : list Agent) :
  forall (infos : list AgentInfo) (vs : list Z),
    Forall2 (key_pair sp b) as_ infos ->
    List.length vs = List.length as_ ->
    Forall (fun v => v < 2 ^ b) vs ->
    exists cts, Encryptions identifier as_ vs cts.
Proof.
  induction as_ as [| a as_ IH]; intros infos vs Hkeys Hlen Hfit.
  - destruct vs; [| discriminate]. exists []. constructor.
  - destruct vs as [| v vs]; [discriminate |].
    inversion Hkeys as [| a' ai as' infos' Hk Hkeys' ]; subst.
    inversion Hfit as [| v' vs' Hv Hfit' ]; subst.
    destruct (IH infos' vs Hkeys') as [cts Hcts]; [simpl in Hlen; lia | assumption |].
    assert (Hb : len (Agent_beta a) = b) by apply Hk.
    destruct (F_for_returns (Agent_beta a) v Zr_1) as [br Ebr]; [rewrite Hb; assumption |].
    exists (ciphertext_of a identifier br (fst (Rand_Zr s)) :: cts).
    apply (Encryptions_cons identifier a v _ s (snd (Rand_Zr s))); [| assumption].
    rewrite NewCiphertext_eq, Ebr. reflexivity.
Qed.

(** With the keys of [n] agents, a token built from the encrypted values
    passes the test. *)
Lemma NewToken_Test_matching (sp : SystemParameters) (n b : Z) (rg : RuleGenerator)
    (as_ : list Agent) (identifier : string) (vs : list Z) (cts : list Ciphertext)
    (s : RandState) :
  keys_of sp n b rg as_ ->
  Encryptions identifier as_ vs cts ->
  exists r s',
    NewToken rg vs s = Ret ((Some r, None), s') /\
    indices r = nonneg_positions vs 0 /\
    Test (NewAlarmSystem sp r identifier) cts = Ret true.
Proof.
  intros Hkeys Henc. pose proof (Encryptions_length _ _ _ _ Henc) as [Hlv Hlc].
  pose proof (keys_of_len _ _ _ _ _ Hkeys) as Hn.
  assert (Hsp : RuleGenerator_sp rg = sp) by apply Hkeys.
  assert (Hlas : len as_ = n) by apply Hkeys.
  unfold NewToken.
  destruct (Z.ltb_spec (len vs) (len (agents rg))) as [Hshort | _];
    [unfold len in *; lia |].
  destruct (NewToken_range_balanced rg identifier cts vs 0
              {| indices := []; g2u := []; f2u := []; product := G2_1 |} s [])
    as (r & s' & cs & E & Hsel & Hbal).
  - intros k v Ek Hv. rewrite Z.add_0_l.
    destruct (Encryptions_nth _ _ _ _ Henc k v Ek) as (a & c & t & t' & Ea & Ec & E).
    assert (Ia : index as_ (Z.of_nat k) = Ret a)
      by (apply index_Ret; rewrite Nat2Z.id; split; [lia | assumption]).
    destruct (keys_of_agent _ _ _ _ _ _ _ Hkeys Ia) as (ai & Eai & Hk).
    exists ai, c. repeat split.
    + assumption.
    + apply index_Ret. rewrite Nat2Z.id. split; [lia | assumption].
    + rewrite NewCiphertext_eq in E. apply bind_Ret in E as (br & Ebr & E).
      injection E as <- _. exists a, b, br, (fst (Rand_Zr t)).
      rewrite Hsp. split; [assumption | split; [assumption | reflexivity]].
  - constructor.
  - apply balanced_empty.
  - rewrite E. cbn [bind]. exists r, s'. split; [reflexivity |].
    apply NewToken_range_indices in E as [Ei _]. split; [exact Ei |].
    destruct Hbal as (Hf & Hg & Hbal). pose proof (selected_length _ _ _ Hsel) as Hl.
    rewrite (Test_selected _ cts cs); unfold NewAlarmSystem; cbn [rt hID].
    + rewrite Hbal. f_equal. apply Equals_eq. reflexivity.
    + split; lia.
    + assumption.
Qed.

End Correctness.

(** ** The operations, one by one *)

Section Operations.

Context {P : Pairing}.

Lemma nonneg_positions_all (vs : list Z) :
  Forall (fun v => 0 <= v) vs ->
  forall i0, nonneg_positions vs i0 =
             map (fun k => i0 + Z.of_nat k) (seq 0 (List.length vs)).
Proof.
  induction 1 as [| v vs Hv _ IH]; intros i0; [reflexivity |].
  simpl. destruct (Z.geb_spec v 0) as [_ | Hneg]; [| lia].
  rewrite Z.add_0_r. f_equal. rewrite IH, <- seq_shift, map_map.
  apply map_ext. intros k. lia.
Qed.

Lemma NewToken_wf (rg : RuleGenerator) (rules : list Z) (s s' : RandState)
    (r : RuleToken) (e : option error) :
  NewToken rg rules s = Ret ((Some r, e), s') ->
  e = None /\ token_wf r /\ indices r = nonneg_positions rules 0.
Proof.
  unfold NewToken. destruct (len rules <? len (agents rg)); [discriminate |].
  intros E. apply bind_Ret in E as ([r0 s0] & Erange & E). injection E as <- <- <-.
  apply NewToken_range_indices in Erange as [Ei Hwf]. repeat split.
  - apply Hwf. split; reflexivity.
  - apply Hwf. split; reflexivity.
  - exact Ei.
Qed.

(** C1 (as the program computes it).  For an alarm system built from a token
    whose [g2u] and [f2u] lists have one entry per included index, as every
    token of [NewToken] has, and a ciphertext collection in which every
    included index is valid: [Test] computes [p1] as the product over the
    included indices of the pairings of [part1] with the [f2u] entry, times
    the pairing of the identifier hash with the token's product; [p2] as
    the product of the pairings of [part2] with the [g2u] entry; and returns
    the equality of [p1] and [p2] in GT. *)
Theorem Test_pairing_equation (sp : SystemParameters) (r : RuleToken)
    (identifier : string) (ct : list Ciphertext) :
  token_wf r ->
  (forall v, In v (indices r) -> 0 <= v < len ct) ->
  exists cs,
    selected ct (indices r) cs /\
    Test (NewAlarmSystem sp r identifier) ct =
    Ret (Equals (GT_mul (prod_pairings (map part1 cs) (f2u r))
                        (Pair (SetFromStringHash identifier sha256_New) (product r)))
                (prod_pairings (map part2 cs) (g2u r))).
Proof.
  intros Hwf Hvalid. destruct (selected_exists ct (indices r) Hvalid) as [cs Hsel].
  exists cs. split; [assumption |].
  apply (Test_selected (NewAlarmSystem sp r identifier) ct cs); assumption.
Qed.

(** C2.  For every agent count [n] and bit width [b], key generation returns
    keys such that, for every identifier and plaintexts [v_0 .. v_(n-1)],
    each non-negative with all set bits below [b]: every agent can encrypt
    its plaintext, and whenever agent [i] has encrypted [(identifier, v_i)],
    [NewToken] on the rules [v_0 .. v_(n-1)] returns a token that lists all
    [n] positions and [Test] on the [n] ciphertexts, for the same identifier,
    returns true. *)
Theorem Test_accepts_matching_token (L : PairingLaws P) (sk : SetupKey) (n b : Z)
    (s0 : RandState) :
  0 <= n -> 0 <= b ->
  exists rg as_ s1,
    GenerateKeys sk n b s0 = Ret ((rg, as_), s1) /\
    forall identifier vs,
      len vs = n ->
      Forall (fun v => 0 <= v /\ forall i, Z.testbit v i = true -> i < b) vs ->
      (exists cts, Encryptions identifier as_ vs cts) /\
      forall cts, Encryptions identifier as_ vs cts ->
        forall s, exists r s',
          NewToken rg vs s = Ret ((Some r, None), s') /\
          indices r = map Z.of_nat (seq 0 (List.length vs)) /\
          Test (NewAlarmSystem (SetupKey_sp sk) r identifier) cts = Ret true.
Proof.
  intros Hn Hb. destruct (GenerateKeys_returns sk n b s0 Hn Hb) as [[[rg as_] s1] E].
  exists rg, as_, s1. split; [assumption |].
  apply GenerateKeys_keys in E as [_ Hkeys].
  intros identifier vs Hlen Hvs. split.
  - destruct Hkeys as (_ & Hk & Hl & _).
    apply (Encryptions_exist (SetupKey_sp sk) b identifier s0 as_ (agents rg) vs Hk).
    + unfold len in *. lia.
    + apply Forall_impl with (2 := Hvs). intros v [Hv Hbits].
      apply low_bits_iff; assumption.
  - intros cts Henc s.
    destruct (NewToken_Test_matching _ _ _ _ _ identifier vs cts s Hkeys Henc)
      as (r & s' & Etok & Ei & Etest).
    exists r, s'. repeat split; [assumption | | assumption].
    rewrite Ei, nonneg_positions_all.
    + apply map_ext. intros k. lia.
    + apply Forall_impl with (2 := Hvs). intros v [Hv _]. assumption.
Qed.

(** C3.  For a token that [NewToken] built from rules whose position [j] is
    negative, [j] is not among the included indices, and on two ciphertext
    collections that agree at every included index (they may differ at [j])
    [Test] returns the same boolean. *)
Theorem Test_ignores_wildcard (rg : RuleGenerator) (rules : list Z) (s s' : RandState)
    (r : RuleToken) (sp : SystemParameters) (identifier : string)
    (j : nat) (v : Z) (ct ct' : list Ciphertext) :
  NewToken rg rules s = Ret ((Some r, None), s') ->
  nth_error rules j = Some v -> v < 0 ->
  (forall i, In i (indices r) -> nth_error ct (Z.to_nat i) = nth_error ct' (Z.to_nat i)) ->
  ~ In (Z.of_nat j) (indices r) /\
  forall result,
    Test (NewAlarmSystem sp r identifier) ct = Ret result <->
    Test (NewAlarmSystem sp r identifier) ct' = Ret result.
Proof.
  intros Etok Ej Hv Hagree. apply NewToken_wf in Etok as (_ & _ & Ei). split.
  - rewrite Ei. intros Hin. apply In_nonneg_positions in Hin as (k & v' & Ek & Ev & Hv').
    assert (k = j) by lia. subst k. rewrite Ej in Ev. injection Ev as <-. lia.
  - intros result. split; apply Test_agree; unfold NewAlarmSystem; cbn [rt].
    + assumption.
    + intros i Hin. symmetry. apply Hagree. assumption.
Qed.

(** C4 (as the program behaves).  For a rule generator knowing [n] agents,
    every token that [NewToken] returns comes without an error and lists
    exactly the positions [i] with [rules[i] >= 0], in increasing order, each
    within [0 .. n-1].  [NewToken] does return a token, with no
    out-of-range access, for rules with [len(rules) >= n] in which every
    non-negative entry sits at the position of a known agent and is below
    [2^len(beta)] for that agent's [beta]. *)
Theorem NewToken_included_indices (rg : RuleGenerator) (rules : list Z) (s : RandState) :
  (forall r e s',
     NewToken rg rules s = Ret ((Some r, e), s') ->
     e = None /\
     indices r = nonneg_positions rules 0 /\
     (forall i, In i (indices r) <->
                exists v, 0 <= i /\ nth_error rules (Z.to_nat i) = Some v /\ 0 <= v) /\
     Forall (fun i => 0 <= i < len (agents rg)) (indices r)) /\
  (len (agents rg) <= len rules ->
   (forall k v, nth_error rules k = Some v -> 0 <= v ->
      exists ai, index (agents rg) (Z.of_nat k) = Ret ai /\
                 v < 2 ^ len (AgentInfo_beta ai)) ->
   exists r s', NewToken rg rules s = Ret ((Some r, None), s')).
Proof.
  split.
  - intros r e s' Etok. pose proof (NewToken_wf _ _ _ _ _ _ Etok) as (He & _ & Ei).
    split; [assumption |]. split; [assumption |]. split.
    + intros i. rewrite Ei, In_nonneg_positions. split.
      * intros (k & v & -> & Ek & Hv). exists v.
        rewrite Z.add_0_l, Nat2Z.id. repeat split; [lia | assumption | assumption].
      * intros (v & Hi & Ek & Hv). exists (Z.to_nat i), v.
        repeat split; [lia | assumption | assumption].
    + unfold NewToken in Etok.
      destruct (len rules <? len (agents rg)); [discriminate |].
      apply bind_Ret in Etok as ([r0 s0] & Erange & _).
      rewrite Ei. apply (NewToken_range_in_range _ _ _ _ _ _ _ Erange).
  - intros Hlen Hfit.
    destruct (NewToken_range_returns rg rules 0
                {| indices := []; g2u := []; f2u := []; product := G2_1 |} s)
      as [[r s'] E].
    { intros k v Ek Hv. rewrite Z.add_0_l. apply Hfit; assumption. }
    exists r, s'. unfold NewToken.
    destruct (Z.ltb_spec (len rules) (len (agents rg))); [lia |].
    rewrite E. reflexivity.
Qed.

(** C5 (as the program behaves).  When some included index of the token is
    not a valid index into the ciphertext collection, [Test] does not
    return: the run time panics with its index-out-of-range error at the
    first such index, the one that only valid indices precede in the
    included-index list; there is no error value. *)
Theorem Test_missing_index_panics (as_ : AlarmSystem) (ct : list Ciphertext) :
  (exists v, In v (indices (rt as_)) /\ ~ (0 <= v < len ct)) ->
  exists pre v post,
    indices (rt as_) = pre ++ v :: post /\
    (forall w, In w pre -> 0 <= w < len ct) /\
    In v (indices (rt as_)) /\ ~ (0 <= v < len ct) /\
    Test as_ ct = Panic (IndexOutOfRange v (len ct)).
Proof.
  intros Hbad.
  destruct (Test_parts_first_missing ct _ Hbad) as (pre & v & post & Eidx & Hpre & Hv & E).
  exists pre, v, post. split; [assumption |]. split; [assumption |].
  split; [rewrite Eidx; apply in_or_app; right; left; reflexivity |].
  split; [assumption |]. unfold Test. rewrite E. reflexivity.
Qed.

(** C6.  [NewToken] returns the error [ErrWrongNumberOfRules] exactly when
    [len(rules)] is less than the number of agents of the rule generator;
    it then returns no token and has read no randomness; and no other
    return carries an error. *)
Theorem NewToken_rule_count_mismatch (rg : RuleGenerator) (rules : list Z) (s : RandState) :
  (len rules < len (agents rg) <->
   NewToken rg rules s = Ret ((None, Some ErrWrongNumberOfRules), s)) /\
  (forall r e s', NewToken rg rules s = Ret ((r, Some e), s') ->
     len rules < len (agents rg) /\ r = None /\ s' = s).
Proof.
  unfold NewToken. destruct (Z.ltb_spec (len rules) (len (agents rg))) as [Hlt | Hge].
  - split.
    + split; [reflexivity | intros _; assumption].
    + intros r e s' E. injection E as <- _ <-. repeat split. assumption.
  - split.
    + split; [lia |]. intros E. apply bind_Ret in E as ([r0 s0] & _ & E). discriminate.
    + intros r e s' E. apply bind_Ret in E as ([r0 s0] & _ & E). discriminate.
Qed.

Lemma F_scalar_G1 (sp : SystemParameters) (x : G1) (beta : list Zr) (aux : Zr)
    (input : Z) :
  0 <= input -> input < 2 ^ len beta ->
  F sp 1 (InG1 x) beta aux input = Ret (InG1 (G1_pow x (F_scalar beta aux input))).
Proof.
  intros Hpos Hlt. pose proof (F_for_scalar beta aux input Hpos Hlt) as Hs.
  rewrite F_G1. destruct (F_for beta input 0 Zr_1) as [br | pv]; [| discriminate].
  simpl in *. injection Hs as ->. reflexivity.
Qed.

Lemma F_scalar_G2 (sp : SystemParameters) (y : G2) (beta : list Zr) (aux : Zr)
    (input : Z) :
  0 <= input -> input < 2 ^ len beta ->
  F sp 2 (InG2 y) beta aux input = Ret (InG2 (G2_pow y (F_scalar beta aux input))).
Proof.
  intros Hpos Hlt. pose proof (F_for_scalar beta aux input Hpos Hlt) as Hs.
  rewrite F_G2. destruct (F_for beta input 0 Zr_1) as [br | pv]; [| discriminate].
  simpl in *. injection Hs as ->. reflexivity.
Qed.

(** C7.  For a non-negative input whose set bits all lie below [len(beta)],
    [F] returns the base raised to the scalar that starts from one, takes
    in [beta[i]] for every set bit [i] of the input, from the least
    significant bit upward, and takes in [aux] once at the end; the result
    is in G1 for group 1 and in G2 for group 2.  [F] reads no randomness:
    the same arguments give the same outcome. *)
Theorem F_exponentiates (sp : SystemParameters) (beta : list Zr) (aux : Zr) (input : Z) :
  0 <= input ->
  (forall i, Z.testbit input i = true -> i < len beta) ->
  (forall x : G1,
     F sp 1 (InG1 x) beta aux input = Ret (InG1 (G1_pow x (F_scalar beta aux input)))) /\
  (forall y : G2,
     F sp 2 (InG2 y) beta aux input = Ret (InG2 (G2_pow y (F_scalar beta aux input)))) /\
  (forall group base o o',
     F sp group base beta aux input = o -> F sp group base beta aux input = o' -> o = o').
Proof.
  intros Hpos Hbits.
  assert (Hlt : input < 2 ^ len beta)
    by (apply low_bits_iff; [assumption | apply len_nonneg | assumption]).
  repeat split.
  - intros x. apply F_scalar_G1; assumption.
  - intros y. apply F_scalar_G2; assumption.
  - intros group base o o' <- <-. reflexivity.
Qed.

(** C8.  For a non-negative plaintext whose set bits lie below the length of
    the agent's [beta], [NewCiphertext] returns the ciphertext whose index is
    the agent's index, whose [part1] is [g1^r] for the scalar [r] read from
    the randomness source, and whose [part2] is
    [F(1, g1^alpha, beta, r, plaintext)] times [H^gamma], with [H] the
    SHA-256 based hash of the identifier into G1.  The agent is only read. *)
Theorem NewCiphertext_parts (a : Agent) (identifier : string) (plaintext : Z)
    (s : RandState) :
  0 <= plaintext ->
  (forall i, Z.testbit plaintext i = true -> i < len (Agent_beta a)) ->
  exists f,
    F (Agent_sp a) 1 (InG1 (Agent_g1alpha a)) (Agent_beta a) (fst (Rand_Zr s)) plaintext
      = Ret (InG1 f) /\
    NewCiphertext a identifier plaintext s =
    Ret ({| Ciphertext_index := Agent_index a;
            part1 := G1_pow (g1 (Agent_sp a)) (fst (Rand_Zr s));
            part2 := G1_mul f (G1_pow (SetFromStringHash identifier sha256_New)
                                      (Agent_gamma a)) |},
         snd (Rand_Zr s)).
Proof.
  intros Hpos Hbits.
  assert (Hlt : plaintext < 2 ^ len (Agent_beta a))
    by (apply low_bits_iff; [assumption | apply len_nonneg | assumption]).
  pose proof (F_scalar_G1 (Agent_sp a) (Agent_g1alpha a) (Agent_beta a)
                (fst (Rand_Zr s)) plaintext Hpos Hlt) as HF.
  eexists. split; [exact HF |].
  unfold NewCiphertext. destruct (Rand_Zr s) as [r s1]. simpl in *.
  rewrite HF. reflexivity.
Qed.

(** C9.  For every file name, [NewSystemParametersFromFile] fails with the
    explicit panic "Unimplemented!" and returns no system parameters. *)
Theorem NewSystemParametersFromFile_unimplemented (filename : string) :
  NewSystemParametersFromFile filename = Panic (PanicString "Unimplemented!") /\
  forall sp, NewSystemParametersFromFile filename <> Ret sp.
Proof.
  split; [reflexivity | intros sp E; discriminate].
Qed.

Lemma NewCiphertext_cases (a : Agent) (identifier : string) (plaintext : Z)
    (s : RandState) :
  (plaintext < 2 ^ len (Agent_beta a) /\
   returns (NewCiphertext a identifier plaintext s)) \/
  (2 ^ len (Agent_beta a) <= plaintext /\
   index_panic (NewCiphertext a identifier plaintext s)).
Proof.
  rewrite NewCiphertext_eq.
  destruct (F_for_cases (Agent_beta a) plaintext Zr_1)
    as [[Hlt [br E]] | [Hge (i & m & E)]]; rewrite E.
  - left. split; [assumption | eexists; reflexivity].
  - right. split; [assumption | eexists _, _; reflexivity].
Qed.

Lemma returns_not_index_panic {A : Type} (o : Outcome A) :
  returns o -> index_panic o -> False.
Proof. intros [a ->] (i & m & E). discriminate. Qed.

Lemma keys_of_In (sp : SystemParameters) (n b : Z) (rg : RuleGenerator)
    (as_ : list Agent) (a : Agent) :
  keys_of sp n b rg as_ -> In a as_ -> len (Agent_beta a) = b.
Proof.
  intros (_ & Hk & _ & _) Hin. apply In_nth_error in Hin as [k Ek].
  destruct (Forall2_nth_error_l _ _ _ Hk _ _ Ek) as (ai & _ & Hp). apply Hp.
Qed.

Lemma keys_of_info_beta (sp : SystemParameters) (n b : Z) (rg : RuleGenerator)
    (as_ : list Agent) (i : Z) (ai : AgentInfo) :
  keys_of sp n b rg as_ -> index (agents rg) i = Ret ai -> len (AgentInfo_beta ai) = b.
Proof.
  intros Hkeys E. destruct (keys_of_info _ _ _ _ _ _ _ Hkeys E) as (a & _ & Hp).
  destruct Hp as (_ & _ & -> & Hb & _). exact Hb.
Qed.

(** C10.  [F] reads [beta] at every set bit of its input without a check of
    its own: it panics on the index exactly when the input is at least
    [2^len(beta)], which for a non-negative input says that some set bit lies
    at or above [len(beta)].  With keys generated for [b]-bit messages,
    [NewCiphertext] panics on the index exactly for a plaintext of at least
    [2^b] and returns for every other one; [NewToken] returns no token for
    rules with a value of at least [2^b], panicking on the index once the
    rule count passes its check, and returns when there are as many rules as
    agents and every value is below [2^b]. *)
Theorem beta_out_of_range :
  (forall sp group base beta aux input,
     (index_panic (F sp group base beta aux input) <-> 2 ^ len beta <= input) /\
     (0 <= input ->
      (2 ^ len beta <= input <->
       exists i, len beta <= i /\ Z.testbit input i = true))) /\
  (forall sk n b s0 rg as_ s1,
     GenerateKeys sk n b s0 = Ret ((rg, as_), s1) ->
     (forall a identifier plaintext s,
        In a as_ ->
        (index_panic (NewCiphertext a identifier plaintext s) <-> 2 ^ b <= plaintext) /\
        (returns (NewCiphertext a identifier plaintext s) <-> plaintext < 2 ^ b)) /\
     (forall rules s,
        ((exists v, In v rules /\ 2 ^ b <= v) ->
         (forall r e s', NewToken rg rules s <> Ret ((Some r, e), s')) /\
         (len (agents rg) <= len rules -> index_panic (NewToken rg rules s))) /\
        (len rules = n -> Forall (fun v => v < 2 ^ b) rules ->
         returns (NewToken rg rules s)))).
Proof.
  split.
  - intros sp group base beta aux input. split.
    + rewrite F_index_panic.
      destruct (F_for_cases beta input Zr_1) as [[Hlt Hret] | [Hge Hpanic]].
      * split; [intros Hp; destruct (returns_not_index_panic _ Hret Hp) | lia].
      * split; [intros _; assumption | intros _; assumption].
    + intros Hpos. symmetry. apply high_bit_iff; [assumption | apply len_nonneg].
  - intros sk n b s0 rg as_ s1 E. apply GenerateKeys_keys in E as [Hn Hkeys]. split.
    + intros a identifier plaintext s Hin.
      pose proof (keys_of_In _ _ _ _ _ _ Hkeys Hin) as Hb.
      destruct (NewCiphertext_cases a identifier plaintext s)
        as [[Hlt Hret] | [Hge Hpanic]]; rewrite Hb in *.
      * split; split; try lia; try (intros _; assumption).
        intros Hp. destruct (returns_not_index_panic _ Hret Hp).
      * split; split; try lia; try (intros _; assumption).
        intros Hret. destruct (returns_not_index_panic _ Hret Hpanic).
    + intros rules s. split.
      * intros (v & Hin & Hv). apply In_nth_error in Hin as [k Ek].
        assert (Hpos : 0 <= v) by (pose proof (Z.pow_nonneg 2 b); lia).
        assert (Hrange : forall r0, index_panic (NewToken_range rg rules 0 r0 s)).
        { intros r0. apply (NewToken_range_panics rg rules 0 r0 s k v Ek Hpos).
          intros ai Eai. rewrite (keys_of_info_beta _ _ _ _ _ _ _ Hkeys Eai). assumption. }
        unfold NewToken. destruct (Z.ltb_spec (len rules) (len (agents rg))) as [Hlt | Hge].
        -- split; [intros r e s' E; discriminate | lia].
        -- match goal with
           | |- context [NewToken_range rg rules 0 ?r0 s] =>
               destruct (Hrange r0) as (i & m & Ep); rewrite Ep
           end.
           split; [intros r e s' E; discriminate | intros _; eexists _, _; reflexivity].
      * intros Hlen Hfit. unfold NewToken.
        rewrite (keys_of_len _ _ _ _ _ Hkeys), <- Hlen.
        destruct (Z.ltb_spec (len rules) (len rules)) as [Hlt | _]; [lia |].
        match goal with
        | |- context [NewToken_range rg rules 0 ?r0 s] =>
            destruct (NewToken_range_returns rg rules 0 r0 s) as [[r s'] Er]
        end.
        { intros k v Ek Hv. rewrite Z.add_0_l.
          assert (Hk : (k < List.length rules)%nat) by (apply nth_error_Some; congruence).
          destruct (index_in_range (agents rg) (Z.of_nat k)) as [ai Eai].
          { rewrite (keys_of_len _ _ _ _ _ Hkeys), <- Hlen. unfold len. lia. }
          exists ai. split; [assumption |].
          rewrite (keys_of_info_beta _ _ _ _ _ _ _ Hkeys Eai).
          rewrite Forall_forall in Hfit. apply Hfit. eapply nth_error_In. eassumption. }
        rewrite Er. eexists. reflexivity.
Qed.

End Operations.

(** ** The scheme over the group of order 5 *)

Lemma Z5_laws : PairingLaws Z5.pairing.
Proof.
  constructor; simpl.
  - intros a b. destruct a, b; reflexivity.
  - intros a b c. destruct a, b, c; reflexivity.
  - intros x y. destruct x, y; reflexivity.
  - intros x y z. destruct x, y, z; reflexivity.
  - intros x. destruct x; reflexivity.
  - intros x a b. destruct x, a, b; reflexivity.
  - intros x y z. destruct x, y, z; reflexivity.
  - intros x y z. destruct x, y, z; reflexivity.
  - intros x y k. destruct x, y, k; reflexivity.
  - intros x y k. destruct x, y, k; reflexivity.
  - intros x. destruct x; reflexivity.
  - intros x y. destruct x, y; split; intros E; try reflexivity; discriminate.
Qed.

Example GenerateKeys_two_agents :
  GenerateKeys Z5.sk0 2 2 0 = Ret ((Z5.rg0, Z5.agents0), 8).
Proof. vm_compute. reflexivity. Qed.

Example NewToken_two_rules :
  NewToken Z5.rg0 [1; 2] 20 = Ret ((Some Z5.token0, None), 22).
Proof. vm_compute. reflexivity. Qed.

Example Test_two_agents : Test Z5.alarm0 Z5.cts0 = Ret true.
Proof. vm_compute. reflexivity. Qed.

Example Test_three_agents :
  List.length Z5.cts3 = 3%nat /\
  Test (NewAlarmSystem Z5.sp0 (Z5.token_of Z5.rg3 [5; 3; 7] 40) "X") Z5.cts3 = Ret true /\
  indices (Z5.token_of Z5.rg3 [5; -1; 7] 40) = [0; 2] /\
  Test (NewAlarmSystem Z5.sp0 (Z5.token_of Z5.rg3 [5; -1; 7] 40) "X") Z5.cts3 = Ret true.
Proof. vm_compute. repeat split. Qed.

Example F_for_five :
  F_for (P := Z5.pairing) [Z5.e2; Z5.e3; Z5.e4] 5 0 Z5.e1 = Ret Z5.e3 /\
  F_for (P := Z5.pairing) [Z5.e2; Z5.e3] 5 0 Z5.e1 = Panic (IndexOutOfRange 2 2).
Proof. vm_compute. split; reflexivity. Qed.

(** C1: a run in which every included index is valid and [Test] returns
    true, while the equation with [part1] and [part2] exchanged is false. *)
Lemma Test_not_as_specified :
  token_wf Z5.token0 /\
  Forall (fun v => 0 <= v < len Z5.cts0) (indices (rt Z5.alarm0)) /\
  Test Z5.alarm0 Z5.cts0 = Ret true /\
  Test_as_specified Z5.alarm0 Z5.cts0 = Ret false.
Proof.
  split; [split; reflexivity |].
  split; [repeat constructor; vm_compute; congruence |].
  split; vm_compute; reflexivity.
Qed.

Lemma Test_pairing_equation_witness :
  exists cs,
    selected Z5.cts0 (indices Z5.token0) cs /\
    Test (NewAlarmSystem Z5.sp0 Z5.token0 "X") Z5.cts0 =
    Ret (Equals (GT_mul (prod_pairings (map part1 cs) (f2u Z5.token0))
                        (Pair (SetFromStringHash "X" sha256_New) (product Z5.token0)))
                (prod_pairings (map part2 cs) (g2u Z5.token0))).
Proof.
  apply (Test_pairing_equation Z5.sp0 Z5.token0 "X" Z5.cts0).
  - split; reflexivity.
  - intros v Hin. vm_compute in Hin.
    destruct Hin as [<- | [<- | []]]; vm_compute; split; congruence.
Defined.

Lemma Test_accepts_matching_token_witness :
  exists rg as_ s1,
    GenerateKeys Z5.sk0 2 2 0 = Ret ((rg, as_), s1) /\
    forall identifier vs,
      len vs = 2 ->
      Forall (fun v => 0 <= v /\ forall i, Z.testbit v i = true -> i < 2) vs ->
      (exists cts, Encryptions identifier as_ vs cts) /\
      forall cts, Encryptions identifier as_ vs cts ->
        forall s, exists r s',
          NewToken rg vs s = Ret ((Some r, None), s') /\
          indices r = map Z.of_nat (seq 0 (List.length vs)) /\
          Test (NewAlarmSystem (SetupKey_sp Z5.sk0) r identifier) cts = Ret true.
Proof.
  apply (Test_accepts_matching_token Z5_laws Z5.sk0 2 2 0); lia.
Defined.

Lemma Test_ignores_wildcard_witness :
  ~ In 1 (indices Z5.token_wild) /\
  forall result,
    Test (NewAlarmSystem Z5.sp0 Z5.token_wild "X") Z5.cts0 = Ret result <->
    Test (NewAlarmSystem Z5.sp0 Z5.token_wild "X") Z5.cts1 = Ret result.
Proof.
  apply (Test_ignores_wildcard Z5.rg0 [1; -1] 20 21 Z5.token_wild Z5.sp0 "X"
           1%nat (-1) Z5.cts0 Z5.cts1).
  - vm_compute. reflexivity.
  - reflexivity.
  - lia.
  - intros i Hin. vm_compute in Hin. destruct Hin as [<- | []]. vm_compute. reflexivity.
Defined.

Example wildcard_ciphertexts_differ : nth_error Z5.cts0 1 <> nth_error Z5.cts1 1.
Proof. vm_compute. congruence. Qed.

(** C4: with two agents and two-bit messages, three rules that are all
    non-negative pass the count check and make [NewToken] read the agents
    out of range; so does, at [beta], a rule value of 4. *)
Lemma NewToken_panics_past_the_check :
  len (agents Z5.rg0) <= len [0; 0; 0] /\
  NewToken Z5.rg0 [0; 0; 0] 20 = Panic (IndexOutOfRange 2 2) /\
  len (agents Z5.rg0) <= len [1; 4] /\
  NewToken Z5.rg0 [1; 4] 20 = Panic (IndexOutOfRange 2 2).
Proof.
  repeat split; vm_compute; congruence.
Qed.

Lemma NewToken_included_indices_witness :
  exists r s', NewToken Z5.rg0 [1; -1; -5] 20 = Ret ((Some r, None), s').
Proof.
  apply (proj2 (NewToken_included_indices Z5.rg0 [1; -1; -5] 20)).
  - vm_compute. congruence.
  - intros k v Ek Hv. destruct k as [| [| [| k]]]; simpl in Ek.
    + injection Ek as <-. eexists. split; [vm_compute; reflexivity | vm_compute; reflexivity].
    + injection Ek as <-. lia.
    + injection Ek as <-. lia.
    + destruct k; discriminate.
Defined.

Example NewToken_three_rules :
  NewToken Z5.rg0 [1; -1; -5] 20 =
  Ret ((Some (@Build_RuleToken Z5.pairing [0] [Z5.e1] [Z5.e3] Z5.e2), None), 21).
Proof. vm_compute. reflexivity. Qed.

(** C5: the token lists the indices 0 and 1 and the collection is empty;
    [Test] does not return, it panics on the index. *)
Lemma Test_crashes_on_missing_index :
  indices (rt Z5.alarm0) = [0; 1] /\
  Test Z5.alarm0 [] = Panic (IndexOutOfRange 0 0) /\
  ~ returns (Test Z5.alarm0 []).
Proof.
  split; [reflexivity |]. split; [reflexivity |].
  intros [result E]. vm_compute in E. discriminate.
Qed.

Lemma Test_missing_index_panics_witness :
  exists pre v post,
    indices (rt Z5.alarm0) = pre ++ v :: post /\
    (forall w, In w pre -> 0 <= w < len (firstn 1 Z5.cts0)) /\
    In v (indices (rt Z5.alarm0)) /\ ~ (0 <= v < len (firstn 1 Z5.cts0)) /\
    Test Z5.alarm0 (firstn 1 Z5.cts0) =
    Panic (IndexOutOfRange v (len (firstn 1 Z5.cts0))).
Proof.
  apply (Test_missing_index_panics Z5.alarm0 (firstn 1 Z5.cts0)).
  exists 1. split; [right; left; reflexivity |]. vm_compute. intros [_ E]. discriminate.
Defined.

(** With the indices 0 and 1 and a single ciphertext, index 0 is read and
    the panic is at index 1. *)
Example Test_panics_at_first_missing :
  Test Z5.alarm0 (firstn 1 Z5.cts0) = Panic (IndexOutOfRange 1 1).
Proof. vm_compute. reflexivity. Qed.

Lemma NewToken_rule_count_mismatch_witness :
  NewToken Z5.rg0 [1] 20 = Ret ((None, Some ErrWrongNumberOfRules), 20).
Proof.
  apply (proj1 (proj1 (NewToken_rule_count_mismatch Z5.rg0 [1] 20))).
  vm_compute. reflexivity.
Defined.

Lemma F_exponentiates_witness :
  (forall x : @G1 Z5.pairing,
     F (P := Z5.pairing) Z5.sp0 1 (InG1 x) [Z5.e2; Z5.e3; Z5.e4] Z5.e3 5 =
     Ret (InG1 (G1_pow x (F_scalar (P := Z5.pairing) [Z5.e2; Z5.e3; Z5.e4] Z5.e3 5)))) /\
  (forall y : @G2 Z5.pairing,
     F (P := Z5.pairing) Z5.sp0 2 (InG2 y) [Z5.e2; Z5.e3; Z5.e4] Z5.e3 5 =
     Ret (InG2 (G2_pow y (F_scalar (P := Z5.pairing) [Z5.e2; Z5.e3; Z5.e4] Z5.e3 5)))) /\
  (forall group base o o',
     F (P := Z5.pairing) Z5.sp0 group base [Z5.e2; Z5.e3; Z5.e4] Z5.e3 5 = o ->
     F (P := Z5.pairing) Z5.sp0 group base [Z5.e2; Z5.e3; Z5.e4] Z5.e3 5 = o' -> o = o').
Proof.
  apply (F_exponentiates (P := Z5.pairing) Z5.sp0 [Z5.e2; Z5.e3; Z5.e4] Z5.e3 5).
  - lia.
  - apply (proj2 (low_bits_iff 5 3 ltac:(lia) ltac:(lia))). reflexivity.
Defined.

Example F_scalar_five : F_scalar (P := Z5.pairing) [Z5.e2; Z5.e3; Z5.e4] Z5.e3 5 = Z5.e4.
Proof. vm_compute. reflexivity. Qed.

Example agent0_generated : nth_error Z5.agents0 0 = Some Z5.agent0.
Proof. vm_compute. reflexivity. Qed.

Lemma NewCiphertext_parts_witness :
  exists f : @G1 Z5.pairing,
    F (Agent_sp Z5.agent0) 1 (InG1 (Agent_g1alpha Z5.agent0)) (Agent_beta Z5.agent0)
      (fst (Rand_Zr (Pairing := Z5.pairing) 10)) 2 = Ret (InG1 f) /\
    NewCiphertext Z5.agent0 "X" 2 10 =
    Ret ({| Ciphertext_index := Agent_index Z5.agent0;
            part1 := G1_pow (g1 (Agent_sp Z5.agent0)) (fst (Rand_Zr (Pairing := Z5.pairing) 10));
            part2 := G1_mul f (G1_pow (SetFromStringHash "X" sha256_New)
                                      (Agent_gamma Z5.agent0)) |},
         snd (Rand_Zr (Pairing := Z5.pairing) 10)).
Proof.
  apply (NewCiphertext_parts Z5.agent0 "X" 2 10).
  - lia.
  - apply (proj2 (low_bits_iff 2 2 ltac:(lia) ltac:(lia))). reflexivity.
Defined.

Example NewCiphertext_two :
  NewCiphertext Z5.agent0 "X" 2 10 =
  Ret (@Build_Ciphertext Z5.pairing 0 Z5.e1 Z5.e4, 11) /\
  NewCiphertext Z5.agent0 "X" 4 10 = Panic (IndexOutOfRange 2 2).
Proof. vm_compute. split; reflexivity. Qed.

Lemma beta_out_of_range_witness :
  (forall a identifier plaintext s,
     In a Z5.agents0 ->
     (index_panic (NewCiphertext a identifier plaintext s) <-> 2 ^ 2 <= plaintext) /\
     (returns (NewCiphertext a identifier plaintext s) <-> plaintext < 2 ^ 2)) /\
  (forall rules s,
     ((exists v, In v rules /\ 2 ^ 2 <= v) ->
      (forall r e s', NewToken Z5.rg0 rules s <> Ret ((Some r, e), s')) /\
      (len (agents Z5.rg0) <= len rules -> index_panic (NewToken Z5.rg0 rules s))) /\
     (len rules = 2 -> Forall (fun v => v < 2 ^ 2) rules ->
      returns (NewToken Z5.rg0 rules s))).
Proof.
  apply (proj2 (beta_out_of_range (P := Z5.pairing)) Z5.sk0 2 2 0 Z5.rg0 Z5.agents0 8).
  vm_compute. reflexivity.
Defined.

Example Encryptions_two_agents :
  Encryptions (P := Z5.pairing) "X" Z5.agents0 [1; 2] Z5.cts0.
Proof.
  apply (Encryptions_cons (P := Z5.pairing) "X" Z5.agent0 1
           (@Build_Ciphertext Z5.pairing 0 Z5.e1 Z5.e2) 10 11); [vm_compute; reflexivity |].
  eapply (Encryptions_cons (P := Z5.pairing) "X" _ 2 _ 10 11); [vm_compute; reflexivity |].
  constructor.
Qed.

(** ** Further properties: key generation *)

Section KeyGeneration.

Context {P : Pairing}.

Lemma skip_add (j k : nat) (s : RandState) : skip (j + k) s = skip k (skip j s).
Proof.
  revert s. induction j as [| j IH]; intros s; [reflexivity |]. simpl. apply IH.
Qed.

Lemma GenerateKeys_beta_skip (count : nat) :
  forall s, snd (GenerateKeys_beta count s) = skip count s.
Proof.
  induction count as [| count IH]; intros s; [reflexivity |].
  simpl. destruct (Rand_Zr s) as [b s1] eqn:E. specialize (IH s1).
  destruct (GenerateKeys_beta count s1) as [bs s2]. simpl in *. exact IH.
Qed.

Lemma GenerateKeys_loop_skip (sk : SetupKey) (b : Z) (count : nat) :
  forall i infos as_ s infos' as_' s',
    GenerateKeys_loop sk b count i infos as_ s = Ret ((infos', as_'), s') ->
    s' = skip (count * (Z.to_nat b + 2)) s.
Proof.
  induction count as [| count IH]; intros i infos as_ s infos' as_' s' E.
  - simpl in E. injection E as _ _ <-. reflexivity.
  - cbn [GenerateKeys_loop] in E. destruct (Rand_Zr s) as [alpha s1] eqn:E1.
    unfold make in E. destruct (b <? 0); [discriminate |]. cbn [bind] in E.
    pose proof (GenerateKeys_beta_skip (Z.to_nat b) s1) as Hb.
    destruct (GenerateKeys_beta (Z.to_nat b) s1) as [beta s2]. simpl in Hb.
    destruct (Rand_Zr s2) as [gamma s3] eqn:E3.
    apply IH in E. rewrite E.
    replace (S count * (Z.to_nat b + 2))%nat
      with ((1 + Z.to_nat b + 1) + count * (Z.to_nat b + 2))%nat by lia.
    rewrite (skip_add (1 + Z.to_nat b + 1)), (skip_add (1 + Z.to_nat b) 1),
      (skip_add 1 (Z.to_nat b)).
    simpl. rewrite E1. simpl. rewrite <- Hb, E3. reflexivity.
Qed.

Lemma GenerateKeys_loop_panics (sk : SetupKey) (b : Z) (count : nat) :
  b < 0 ->
  forall i infos as_ s,
    GenerateKeys_loop sk b (S count) i infos as_ s = Panic MakeSliceLenOutOfRange.
Proof.
  intros Hb i infos as_ s. cbn [GenerateKeys_loop].
  destruct (Rand_Zr s) as [alpha s1]. unfold make.
  destruct (Z.ltb_spec b 0); [reflexivity | lia].
Qed.

Lemma GenerateKeys_loop_sp (sk sk' : SetupKey) (b : Z) (count : nat) :
  SetupKey_sp sk = SetupKey_sp sk' ->
  forall i infos as_ s,
    GenerateKeys_loop sk b count i infos as_ s =
    GenerateKeys_loop sk' b count i infos as_ s.
Proof.
  intros Hsp. induction count as [| count IH]; intros i infos as_ s; [reflexivity |].
  cbn [GenerateKeys_loop]. rewrite Hsp. destruct (Rand_Zr s) as [alpha s1].
  destruct (make b); [| reflexivity]. cbn [bind].
  destruct (GenerateKeys_beta (Z.to_nat b) s1) as [beta s2].
  destruct (Rand_Zr s2) as [gamma s3]. apply IH.
Qed.

(** X1.  [GenerateKeys] returns exactly when [n = 0], or [n > 0] and the bit
    width is not negative; in every other case it panics in [make]; and for
    [n = 0] it returns no agents and reads no randomness. *)
Theorem GenerateKeys_outcomes (sk : SetupKey) (n b : Z) (s : RandState) :
  (returns (GenerateKeys sk n b s) <-> n = 0 \/ (0 < n /\ 0 <= b)) /\
  (~ returns (GenerateKeys sk n b s) ->
   GenerateKeys sk n b s = Panic MakeSliceLenOutOfRange) /\
  (n = 0 ->
   GenerateKeys sk n b s =
   Ret (({| agents := []; RuleGenerator_sp := SetupKey_sp sk |}, []), s)).
Proof.
  assert (Hzero : n = 0 ->
            GenerateKeys sk n b s =
            Ret (({| agents := []; RuleGenerator_sp := SetupKey_sp sk |}, []), s))
    by (intros ->; reflexivity).
  assert (Hneg : n < 0 -> GenerateKeys sk n b s = Panic MakeSliceLenOutOfRange).
  { intros Hn. unfold GenerateKeys, make. destruct (Z.ltb_spec n 0); [reflexivity | lia]. }
  assert (Hbad : 0 < n -> b < 0 -> GenerateKeys sk n b s = Panic MakeSliceLenOutOfRange).
  { intros Hn Hb. unfold GenerateKeys, make. destruct (Z.ltb_spec n 0); [lia |].
    cbn [bind]. destruct (Z.to_nat n) as [| count] eqn:En; [lia |].
    rewrite GenerateKeys_loop_panics by assumption. reflexivity. }
  assert (Hcases : returns (GenerateKeys sk n b s) \/
                   (GenerateKeys sk n b s = Panic MakeSliceLenOutOfRange /\
                    ~ (n = 0 \/ (0 < n /\ 0 <= b)))).
  { destruct (Z.lt_trichotomy n 0) as [Hn | [Hn | Hn]].
    - right. split; [apply Hneg; assumption | lia].
    - left. rewrite Hzero by assumption. eexists. reflexivity.
    - destruct (Z.lt_ge_cases b 0) as [Hb | Hb].
      + right. split; [apply Hbad; assumption | lia].
      + left. apply GenerateKeys_returns; lia. }
  split; [| split; [| exact Hzero]].
  - split.
    + intros [x Hx]. destruct (Z.lt_trichotomy n 0) as [Hn | [Hn | Hn]].
      * rewrite Hneg in Hx by assumption. discriminate.
      * left. assumption.
      * right. split; [assumption |]. destruct (Z.lt_ge_cases b 0) as [Hb | Hb]; [| assumption].
        rewrite Hbad in Hx by assumption. discriminate.
    + intros Hn. destruct Hcases as [Hret | [_ Hno]]; [assumption | contradiction].
  - intros Hno. destruct Hcases as [Hret | [E _]]; [contradiction | assumption].
Qed.

(** X2.  The keys that [GenerateKeys] returns: [n] agents and [n] public
    bundles under the system parameters of the setup key; agent [i] carries
    index [i] and a vector [beta] of [b] scalars; its public bundle holds the
    same vector, [g2^alpha] for the [alpha] of the agent's [g1^alpha], and
    [g2^gamma] for the agent's [gamma]. *)
Theorem GenerateKeys_key_material (sk : SetupKey) (n b : Z) (s s' : RandState)
    (rg : RuleGenerator) (as_ : list Agent) :
  GenerateKeys sk n b s = Ret ((rg, as_), s') ->
  RuleGenerator_sp rg = SetupKey_sp sk /\
  len as_ = n /\ len (agents rg) = n /\
  forall i, 0 <= i < n ->
    exists a ai alpha,
      index as_ i = Ret a /\ index (agents rg) i = Ret ai /\
      Agent_index a = i /\ Agent_sp a = SetupKey_sp sk /\
      len (Agent_beta a) = b /\ AgentInfo_beta ai = Agent_beta a /\
      Agent_g1alpha a = G1_pow (g1 (SetupKey_sp sk)) alpha /\
      g2alpha ai = G2_pow (g2 (SetupKey_sp sk)) alpha /\
      g2gamma ai = G2_pow (g2 (SetupKey_sp sk)) (Agent_gamma a).
Proof.
  intros E. apply GenerateKeys_keys in E as [Hn Hkeys].
  pose proof (keys_of_len _ _ _ _ _ Hkeys) as Hlen.
  destruct Hkeys as (Hsp & Hk & Hl & Hidx).
  split; [assumption |]. split; [assumption |]. split; [assumption |].
  intros i Hi. destruct (index_in_range as_ i) as [a Ea]; [lia |].
  pose proof Ea as Ea'. apply index_Ret in Ea' as [_ En].
  destruct (Forall2_nth_error_l _ _ _ Hk _ _ En) as (ai & Eai & Hp).
  destruct Hp as (Hspa & (alpha & Ha1 & Ha2) & Hbeta & Hb & Hg).
  exists a, ai, alpha. split; [assumption |].
  split; [apply index_Ret; split; [lia | assumption] |].
  split; [apply Hidx; assumption |].
  repeat split; assumption.
Qed.

(** X3.  [GenerateKeys] reads [b + 2] scalars for each of the [n] agents,
    and nothing else, from the randomness source. *)
Theorem GenerateKeys_randomness (sk : SetupKey) (n b : Z) (s s' : RandState)
    (rg : RuleGenerator) (as_ : list Agent) :
  GenerateKeys sk n b s = Ret ((rg, as_), s') ->
  s' = skip (Z.to_nat n * (Z.to_nat b + 2)) s.
Proof.
  unfold GenerateKeys. intros E. apply bind_Ret in E as ([] & _ & E).
  apply bind_Ret in E as ([[infos l] s1] & El & E). injection E as _ _ <-.
  apply (GenerateKeys_loop_skip _ _ _ _ _ _ _ _ _ _ El).
Qed.

(** X4.  [GenerateKeys] reads only the system parameters of the setup key:
    two setup keys over the same parameters give the same outcome, so the
    [keys] list of the setup key plays no part. *)
Theorem GenerateKeys_reads_sp_only (sk sk' : SetupKey) (n b : Z) (s : RandState) :
  SetupKey_sp sk = SetupKey_sp sk' ->
  GenerateKeys sk n b s = GenerateKeys sk' n b s.
Proof.
  intros Hsp. unfold GenerateKeys. destruct (make n); [| reflexivity]. cbn [bind].
  rewrite (GenerateKeys_loop_sp sk sk' b (Z.to_nat n) Hsp), Hsp. reflexivity.
Qed.

(** X5.  A ciphertext made by the agent at position [i] of the generated
    keys carries the index [i]. *)
Theorem Ciphertext_index_position (sk : SetupKey) (n b : Z) (s0 s1 : RandState)
    (rg : RuleGenerator) (as_ : list Agent) (i : Z) (a : Agent)
    (identifier : string) (plaintext : Z) (s s' : RandState) (c : Ciphertext) :
  GenerateKeys sk n b s0 = Ret ((rg, as_), s1) ->
  index as_ i = Ret a ->
  NewCiphertext a identifier plaintext s = Ret (c, s') ->
  Ciphertext_index c = i /\ s' = skip 1 s.
Proof.
  intros E Ea Ec. apply GenerateKeys_keys in E as [_ (_ & _ & _ & Hidx)].
  rewrite NewCiphertext_eq in Ec. apply bind_Ret in Ec as (br & _ & Ec).
  injection Ec as <- <-. split; [apply Hidx; assumption | reflexivity].
Qed.

End KeyGeneration.

(** ** Further properties: tokens *)

Section Tokens.

Context {P : Pairing}.

Lemma token_extend_nil (r : RuleToken) : token_extend r [] = r.
Proof.
  destruct r as [idx gu fu pr]. unfold token_extend; simpl.
  rewrite !app_nil_r. reflexivity.
Qed.

Lemma token_extend_cons (r : RuleToken) (e : TokenEntry) (es : list TokenEntry) :
  token_extend r (e :: es) =
  token_extend {| indices := indices r ++ [entry_index e];
                  g2u := g2u r ++ [entry_g2u e];
                  f2u := f2u r ++ [entry_f2u e];
                  product := G2_mul (product r) (entry_factor e) |} es.
Proof.
  unfold token_extend; simpl. rewrite <- !app_assoc. reflexivity.
Qed.

Lemma F_for_Ret_scalar (beta : list Zr) (aux : Zr) (v : Z) (br : Zr) :
  0 <= v -> F_for beta v 0 Zr_1 = Ret br ->
  v < 2 ^ len beta /\ Zr_mul br aux = F_scalar beta aux v.
Proof.
  intros Hv E.
  destruct (F_for_cases beta v Zr_1) as [[Hlt _] | [_ (i & m & Ep)]]; [| congruence].
  split; [assumption |].
  pose proof (F_for_scalar beta aux v Hv Hlt) as Hs. rewrite E in Hs.
  simpl in Hs. injection Hs as Hs. exact Hs.
Qed.

(** The loop of [NewToken] returns exactly the token extended by the
    entries of its rules. *)
Lemma NewToken_range_entries (rg : RuleGenerator) (rules : list Z) :
  forall i r s r' s',
    NewToken_range rg rules i r s = Ret (r', s') <->
    exists es, Entries rg rules i s es s' /\ r' = token_extend r es.
Proof.
  induction rules as [| v rules IH]; intros i r s r' s'.
  - simpl. split.
    + intros E. injection E as <- <-. exists []. split; [constructor |].
      symmetry. apply token_extend_nil.
    + intros (es & Hes & ->). inversion Hes; subst. rewrite token_extend_nil. reflexivity.
  - destruct (Z.lt_ge_cases v 0) as [Hneg | Hpos].
    + rewrite NewToken_range_wildcard by assumption. rewrite IH. split.
      * intros (es & Hes & ->). exists es. split; [| reflexivity].
        apply Entries_wildcard; assumption.
      * intros (es & Hes & ->). inversion Hes; subst; [| lia].
        exists es. split; [assumption | reflexivity].
    + rewrite NewToken_range_nonneg by assumption. split.
      * intros E. apply bind_Ret in E as (ai & Eai & E).
        apply bind_Ret in E as (br & Ebr & E).
        destruct (F_for_Ret_scalar _ (fst (Rand_Zr s)) _ _ Hpos Ebr) as [Hlt Hs].
        apply IH in E as (es & Hes & ->).
        eexists. split.
        -- apply (Entries_rule rg v rules i s es s' ai); eassumption.
        -- rewrite token_extend_cons. unfold token_snoc. simpl. rewrite Hs. reflexivity.
      * intros (es & Hes & ->). inversion Hes as [| | v' rules' i' s0 es' s0' ai Hv Eai Hlt Hrest];
          subst; [lia |].
        rewrite Eai. cbn [bind].
        destruct (F_for_returns (AgentInfo_beta ai) v Zr_1 Hlt) as [br Ebr].
        rewrite Ebr. cbn [bind].
        destruct (F_for_Ret_scalar _ (fst (Rand_Zr s)) _ _ Hpos Ebr) as [_ Hs].
        apply IH. exists es'. split; [assumption |].
        rewrite token_extend_cons. unfold token_snoc. simpl. rewrite Hs. reflexivity.
Qed.

Lemma Entries_skip (rg : RuleGenerator) (rules : list Z) (i : Z) (s s' : RandState)
    (es : list TokenEntry) :
  Entries rg rules i s es s' -> s' = skip (List.length es) s.
Proof.
  induction 1 as [| v rules i s es s' Hv _ IH | v rules i s es s' ai Hv Eai Hlt _ IH];
    [reflexivity | exact IH | simpl; exact IH].
Qed.

Lemma Entries_app_wildcards (rg : RuleGenerator) (ws : list Z) :
  Forall (fun v => v < 0) ws -> forall i s, Entries rg ws i s [] s.
Proof.
  induction 1 as [| v ws Hv _ IH]; intros i s; [constructor |].
  apply Entries_wildcard; [assumption | apply IH].
Qed.

Lemma NewToken_range_app_wildcards (rg : RuleGenerator) (ws : list Z) (rules : list Z) :
  Forall (fun v => v < 0) ws ->
  forall i r s,
    NewToken_range rg (rules ++ ws) i r s = NewToken_range rg rules i r s.
Proof.
  intros Hws. induction rules as [| v rules IH]; intros i r s.
  - simpl. apply NewToken_range_entries. exists []. split.
    + apply Entries_app_wildcards. assumption.
    + symmetry. apply token_extend_nil.
  - rewrite <- app_comm_cons. destruct (Z.lt_ge_cases v 0) as [Hneg | Hpos].
    + rewrite !NewToken_range_wildcard by assumption. apply IH.
    + rewrite !NewToken_range_nonneg by assumption.
      destruct (index (agents rg) i) as [ai | pv]; [| reflexivity]. cbn [bind].
      destruct (F_for (AgentInfo_beta ai) v 0 Zr_1) as [br | pv]; [| reflexivity].
      cbn [bind]. apply IH.
Qed.

(** Every non-negative rule from position [i] on fits, or one does not. *)
Lemma rules_fit_or_misfit (rg : RuleGenerator) (rules : list Z) :
  forall i,
    (forall k v, nth_error rules k = Some v -> 0 <= v -> rule_fits rg (i + Z.of_nat k) v) \/
    (exists k v, nth_error rules k = Some v /\ 0 <= v /\ rule_misfits rg (i + Z.of_nat k) v).
Proof.
  induction rules as [| v0 rules IH]; intros i.
  - left. intros k v E. destruct k; discriminate.
  - assert (Hhead : v0 < 0 \/ (0 <= v0 /\ rule_fits rg i v0) \/
                    (0 <= v0 /\ rule_misfits rg i v0)).
    { destruct (Z.lt_ge_cases v0 0) as [Hneg | Hpos]; [left; assumption | right].
      destruct (index_cases (agents rg) i) as [[ai Eai] | (j & m & Ep)].
      - destruct (Z.lt_ge_cases v0 (2 ^ len (AgentInfo_beta ai))) as [Hlt | Hge].
        + left. split; [assumption |]. exists ai. split; assumption.
        + right. split; [assumption |]. intros ai' Eai'. congruence.
      - right. split; [assumption |]. intros ai Eai. congruence. }
    destruct Hhead as [Hneg | [[Hpos Hfit] | [Hpos Hbad]]].
    + destruct (IH (i + 1)) as [Hall | (k & v & E & Hv & Hbad)].
      * left. intros k v E Hv. destruct k as [| k].
        -- simpl in E. injection E as ->. lia.
        -- replace (i + Z.of_nat (S k)) with (i + 1 + Z.of_nat k) by lia.
           apply Hall; assumption.
      * right. exists (S k), v. split; [assumption |]. split; [assumption |].
        replace (i + Z.of_nat (S k)) with (i + 1 + Z.of_nat k) by lia. assumption.
    + destruct (IH (i + 1)) as [Hall | (k & v & E & Hv & Hbad)].
      * left. intros k v E Hv. destruct k as [| k].
        -- simpl in E. injection E as ->. rewrite Z.add_0_r. assumption.
        -- replace (i + Z.of_nat (S k)) with (i + 1 + Z.of_nat k) by lia.
           apply Hall; assumption.
      * right. exists (S k), v. split; [assumption |]. split; [assumption |].
        replace (i + Z.of_nat (S k)) with (i + 1 + Z.of_nat k) by lia. assumption.
    + right. exists 0%nat, v0. split; [reflexivity |]. split; [assumption |].
      rewrite Z.add_0_r. assumption.
Qed.

(** X6.  The token that [NewToken] returns, entry by entry: the rule count
    passes the check and, for the non-negative rules in order, each with an
    agent at its position and a value below [2^len(beta)], the token holds
    the position, [g2^u], [(g2^alpha)^k] with [k] the scalar of [F] for
    [(beta, u, v)], and its product is the product of the [(g2^gamma)^u],
    where each [u] is the next scalar of the randomness source. *)
Theorem NewToken_entries (rg : RuleGenerator) (rules : list Z) (s s' : RandState)
    (r : RuleToken) :
  NewToken rg rules s = Ret ((Some r, None), s') <->
  len (agents rg) <= len rules /\
  exists es,
    Entries rg rules 0 s es s' /\
    indices r = map entry_index es /\
    g2u r = map entry_g2u es /\
    f2u r = map entry_f2u es /\
    product r = fold_left G2_mul (map entry_factor es) G2_1.
Proof.
  unfold NewToken. destruct (Z.ltb_spec (len rules) (len (agents rg))) as [Hlt | Hge].
  - split; [discriminate | intros [Hle _]; lia].
  - split.
    + intros E. apply bind_Ret in E as ([r0 s0] & Er & E). injection E as <- <-.
      apply NewToken_range_entries in Er as (es & Hes & ->).
      split; [assumption |]. exists es. repeat split. assumption.
    + intros (_ & es & Hes & Hi & Hg & Hf & Hp).
      assert (Er : NewToken_range rg rules 0
                     {| indices := []; g2u := []; f2u := []; product := G2_1 |} s
                   = Ret (r, s')).
      { apply NewToken_range_entries. exists es. split; [assumption |].
        destruct r as [idx gu fu pr]. simpl in *. subst. reflexivity. }
      rewrite Er. reflexivity.
Qed.

(** X7.  [NewToken] reads one scalar for every index that the returned token
    includes, and the three lists of the token have one entry each per
    included index. *)
Theorem NewToken_randomness (rg : RuleGenerator) (rules : list Z) (s s' : RandState)
    (r : RuleToken) (e : option error) :
  NewToken rg rules s = Ret ((Some r, e), s') ->
  s' = skip (List.length (indices r)) s /\
  List.length (g2u r) = List.length (indices r) /\
  List.length (f2u r) = List.length (indices r).
Proof.
  unfold NewToken. destruct (len rules <? len (agents rg)); [discriminate |].
  intros E. apply bind_Ret in E as ([r0 s0] & Er & E). injection E as <- _ <-.
  apply NewToken_range_entries in Er as (es & Hes & ->).
  unfold token_extend; simpl. rewrite !length_map.
  split; [apply (Entries_skip _ _ _ _ _ _ Hes) | split; reflexivity].
Qed.

(** X8.  Wildcards after enough rules change nothing: once there are as
    many rules as agents, further negative rules at the end give the same
    outcome, token and randomness. *)
Theorem NewToken_trailing_wildcards (rg : RuleGenerator) (rules ws : list Z)
    (s : RandState) :
  len (agents rg) <= len rules ->
  Forall (fun v => v < 0) ws ->
  NewToken rg (rules ++ ws) s = NewToken rg rules s.
Proof.
  intros Hlen Hws. unfold NewToken. rewrite len_app.
  pose proof (len_nonneg ws) as Hw.
  destruct (Z.ltb_spec (len rules + len ws) (len (agents rg))); [lia |].
  destruct (Z.ltb_spec (len rules) (len (agents rg))); [lia |].
  rewrite NewToken_range_app_wildcards by assumption. reflexivity.
Qed.

(** X9.  The three outcomes of [NewToken]: the error and no token when the
    rules are fewer than the agents; otherwise an index panic when some
    non-negative rule has no agent at its position or a value of at least
    [2^len(beta)]; otherwise a token and no error. *)
Theorem NewToken_outcomes (rg : RuleGenerator) (rules : list Z) (s : RandState) :
  (len rules < len (agents rg) /\
   NewToken rg rules s = Ret ((None, Some ErrWrongNumberOfRules), s)) \/
  (len (agents rg) <= len rules /\
   (exists k v, nth_error rules k = Some v /\ 0 <= v /\ rule_misfits rg (Z.of_nat k) v) /\
   index_panic (NewToken rg rules s)) \/
  (len (agents rg) <= len rules /\
   (forall k v, nth_error rules k = Some v -> 0 <= v -> rule_fits rg (Z.of_nat k) v) /\
   exists r s', NewToken rg rules s = Ret ((Some r, None), s')).
Proof.
  unfold NewToken. destruct (Z.ltb_spec (len rules) (len (agents rg))) as [Hlt | Hge].
  - left. split; [assumption | reflexivity].
  - right. destruct (rules_fit_or_misfit rg rules 0) as [Hall | (k & v & E & Hv & Hbad)].
    + right. split; [assumption |]. split; [exact Hall |].
      destruct (NewToken_range_returns rg rules 0
                  {| indices := []; g2u := []; f2u := []; product := G2_1 |} s Hall)
        as [[r s'] Er].
      rewrite Er. exists r, s'. reflexivity.
    + left. split; [assumption |]. split; [exists k, v; repeat split; assumption |].
      destruct (NewToken_range_panics rg rules 0
                  {| indices := []; g2u := []; f2u := []; product := G2_1 |} s k v E Hv Hbad)
        as (j & m & Ep).
      rewrite Ep. exists j, m. reflexivity.
Qed.

End Tokens.

(** ** Further properties: the test, [F] and encryption *)

Section Testing.

Context {P : Pairing}.

Lemma index_same_parts (ct ct' : list Ciphertext) (v : Z) :
  Forall2 same_parts ct ct' ->
  (exists c c', index ct v = Ret c /\ index ct' v = Ret c' /\ same_parts c c') \/
  (exists pv, index ct v = Panic pv /\ index ct' v = Panic pv).
Proof.
  intros Hsame. pose proof (Forall2_length Hsame) as Hlen.
  destruct (Z.lt_ge_cases v 0) as [Hneg | Hpos];
    [| destruct (Z.lt_ge_cases v (len ct)) as [Hlt | Hge]].
  - right. exists (IndexOutOfRange v (len ct)). split.
    + apply index_out_of_range. lia.
    + unfold len at 1. rewrite Hlen. apply index_out_of_range. lia.
  - left. destruct (index_in_range ct v) as [c Ec]; [lia |].
    pose proof Ec as Ec'. apply index_Ret in Ec' as [_ En].
    destruct (Forall2_nth_error_l _ _ _ Hsame _ _ En) as (c' & En' & Hp).
    exists c, c'. split; [assumption |]. split; [| assumption].
    apply index_Ret. split; assumption.
  - right. exists (IndexOutOfRange v (len ct)). split.
    + apply index_out_of_range. lia.
    + unfold len at 1. rewrite Hlen. apply index_out_of_range. unfold len in *. lia.
Qed.

Lemma Test_parts_same_parts (ct ct' : list Ciphertext) (idx : list Z) :
  Forall2 same_parts ct ct' -> Test_parts ct idx = Test_parts ct' idx.
Proof.
  intros Hsame. induction idx as [| v idx IH]; [reflexivity |].
  cbn [Test_parts].
  destruct (index_same_parts ct ct' v Hsame)
    as [(c & c' & Ec & Ec' & [H1 H2]) | (pv & Ep & Ep')].
  - rewrite Ec, Ec', IH. cbn [bind]. rewrite H1, H2. reflexivity.
  - rewrite Ep, Ep'. reflexivity.
Qed.

Lemma NewToken_range_wildcards (rg : RuleGenerator) (ws : list Z) :
  Forall (fun v => v < 0) ws ->
  forall i r s, NewToken_range rg ws i r s = Ret (r, s).
Proof.
  induction 1 as [| v ws Hv _ IH]; intros i r s; [reflexivity |].
  rewrite NewToken_range_wildcard by assumption. apply IH.
Qed.

(** X10.  [Test] reads the two group elements of each ciphertext and never
    its [index] field: on two collections whose ciphertexts have, position
    by position, the same [part1] and [part2], the outcome is the same. *)
Theorem Test_reads_parts_only (as_ : AlarmSystem) (ct ct' : list Ciphertext) :
  Forall2 same_parts ct ct' -> Test as_ ct = Test as_ ct'.
Proof.
  intros Hsame. unfold Test.
  rewrite (Test_parts_same_parts ct ct' _ Hsame). reflexivity.
Qed.

(** X11.  A token that [NewToken] returned, tested on a collection with at
    least as many ciphertexts as the rule generator has agents, gives a
    boolean: [Test] does not panic. *)
Theorem Test_returns_on_token (rg : RuleGenerator) (rules : list Z) (s s' : RandState)
    (r : RuleToken) (e : option error) (sp : SystemParameters) (identifier : string)
    (ct : list Ciphertext) :
  NewToken rg rules s = Ret ((Some r, e), s') ->
  len (agents rg) <= len ct ->
  returns (Test (NewAlarmSystem sp r identifier) ct).
Proof.
  intros Etok Hlen. pose proof (NewToken_wf _ _ _ _ _ _ Etok) as (_ & Hwf & Ei).
  unfold NewToken in Etok. destruct (len rules <? len (agents rg)); [discriminate |].
  apply bind_Ret in Etok as ([r0 s0] & Er & Etok). injection Etok as <- _ _.
  pose proof (NewToken_range_in_range _ _ _ _ _ _ _ Er) as Hrange.
  rewrite <- Ei in Hrange. rewrite Forall_forall in Hrange.
  destruct (selected_exists ct (indices r0)) as [cs Hsel].
  { intros v Hin. specialize (Hrange v Hin). lia. }
  rewrite (Test_selected (NewAlarmSystem sp r0 identifier) ct cs Hwf Hsel).
  eexists. reflexivity.
Qed.

(** X12.  For a non-positive input the loop of [F] is not entered: [beta] is
    not read, and an agent encrypts a negative plaintext, whatever its
    [beta], into exactly the ciphertext of the plaintext 0. *)
Theorem NewCiphertext_nonpositive (a : Agent) (identifier : string) (plaintext : Z)
    (s : RandState) :
  plaintext <= 0 ->
  NewCiphertext a identifier plaintext s = NewCiphertext a identifier 0 s /\
  NewCiphertext a identifier plaintext s =
  Ret (ciphertext_of a identifier Zr_1 (fst (Rand_Zr s)), snd (Rand_Zr s)).
Proof.
  intros Hv. rewrite !NewCiphertext_eq.
  destruct plaintext as [| p | p]; [split; reflexivity | lia | split; reflexivity].
Qed.

(** X13.  A [group] other than 1 and 2 makes [F] panic with its own message,
    but only after the loop: an input of at least [2^len(beta)] panics on
    the index first. *)
Theorem F_invalid_group (sp : SystemParameters) (group : Z) (base : Element)
    (beta : list Zr) (aux : Zr) (input : Z) :
  group <> 1 -> group <> 2 ->
  (input < 2 ^ len beta ->
   F sp group base beta aux input = Panic (PanicString "Group should be either 1 or 2.")) /\
  (2 ^ len beta <= input -> index_panic (F sp group base beta aux input)).
Proof.
  intros H1 H2. split.
  - intros Hlt. destruct (F_for_returns beta input Zr_1 Hlt) as [br E].
    unfold F. rewrite E. cbn [bind].
    destruct group as [| [g | [g | g |] |] | g]; try reflexivity; congruence.
  - intros Hge. apply F_index_panic. apply F_for_panics. assumption.
Qed.

End Testing.

(** ** Further properties: the algebra of the test *)

Section Algebra.

Context {P : Pairing} {L : PairingLaws P}.

(** X14.  The two uses of [F] mirror each other under the pairing: with the
    same [beta] and input, pairing [F(1, x, beta, r, v)] with [y^u] gives the
    pairing of [x^r] with [F(2, y, beta, u, v)]. *)
Theorem F_mirror (sp : SystemParameters) (x : G1) (y : G2) (beta : list Zr)
    (r u : Zr) (v : Z) (f1 : G1) (f2 : G2) :
  F sp 1 (InG1 x) beta r v = Ret (InG1 f1) ->
  F sp 2 (InG2 y) beta u v = Ret (InG2 f2) ->
  Pair f1 (G2_pow y u) = Pair (G1_pow x r) f2.
Proof.
  rewrite F_G1, F_G2. intros E1 E2.
  apply bind_Ret in E1 as (br & Ebr & E1). apply bind_Ret in E2 as (br' & Ebr' & E2).
  rewrite Ebr in Ebr'. injection Ebr' as <-.
  injection E1 as <-. injection E2 as <-.
  rewrite !Pair_pow_l, !Pair_pow_r, !GT_pow_pow. f_equal.
  rewrite (Zr_mul_comm u), <- !Zr_mul_assoc. f_equal. apply Zr_mul_comm.
Qed.

(** X15.  Rules that are all wildcards, as many as the agents or more, give
    the empty token without reading randomness, and the alarm system for it
    accepts every ciphertext collection. *)
Theorem all_wildcards_accept (rg : RuleGenerator) (rules : list Z) (s : RandState)
    (sp : SystemParameters) (identifier : string) (ct : list Ciphertext) :
  len (agents rg) <= len rules ->
  Forall (fun v => v < 0) rules ->
  NewToken rg rules s = Ret ((Some empty_token, None), s) /\
  Test (NewAlarmSystem sp empty_token identifier) ct = Ret true.
Proof.
  intros Hlen Hw. split.
  - unfold NewToken. destruct (Z.ltb_spec (len rules) (len (agents rg))); [lia |].
    fold empty_token. rewrite NewToken_range_wildcards by assumption. reflexivity.
  - unfold Test, NewAlarmSystem, empty_token; simpl.
    rewrite Pair_1_r, GT_mul_1_r. f_equal. apply Equals_eq. reflexivity.
Qed.

(** X16.  Correctness with wildcards.  With generated keys, rules at least
    as many as the agents, and a collection that holds, at the position of
    every non-negative rule, a ciphertext that the agent of that position
    made of the rule's value under the identifier: [NewToken] returns a
    token and [Test] returns true, whatever is at the other positions. *)
Theorem Test_accepts_with_wildcards (sk : SetupKey) (n b : Z) (s0 s1 : RandState)
    (rg : RuleGenerator) (as_ : list Agent) (identifier : string) (rules : list Z)
    (cts : list Ciphertext) (s : RandState) :
  GenerateKeys sk n b s0 = Ret ((rg, as_), s1) ->
  n <= len rules ->
  (forall k v, nth_error rules k = Some v -> 0 <= v ->
     exists a c t t',
       nth_error as_ k = Some a /\ nth_error cts k = Some c /\
       NewCiphertext a identifier v t = Ret (c, t')) ->
  exists r s',
    NewToken rg rules s = Ret ((Some r, None), s') /\
    indices r = nonneg_positions rules 0 /\
    Test (NewAlarmSystem (SetupKey_sp sk) r identifier) cts = Ret true.
Proof.
  intros E Hlen Hmeet. apply GenerateKeys_keys in E as [_ Hkeys].
  pose proof (keys_of_len _ _ _ _ _ Hkeys) as Hn.
  assert (Hsp : RuleGenerator_sp rg = SetupKey_sp sk) by apply Hkeys.
  unfold NewToken.
  destruct (Z.ltb_spec (len rules) (len (agents rg))) as [Hshort | _]; [lia |].
  destruct (NewToken_range_balanced rg identifier cts rules 0
              {| indices := []; g2u := []; f2u := []; product := G2_1 |} s [])
    as (r & s' & cs & Er & Hsel & Hbal).
  - intros k v Ek Hv. rewrite Z.add_0_l.
    destruct (Hmeet k v Ek Hv) as (a & c & t & t' & Ea & Ec & Enc).
    assert (Ia : index as_ (Z.of_nat k) = Ret a)
      by (apply index_Ret; rewrite Nat2Z.id; split; [lia | assumption]).
    destruct (keys_of_agent _ _ _ _ _ _ _ Hkeys Ia) as (ai & Eai & Hk).
    exists ai, c. split; [assumption |]. split.
    + apply index_Ret. rewrite Nat2Z.id. split; [lia | assumption].
    + rewrite NewCiphertext_eq in Enc. apply bind_Ret in Enc as (br & Ebr & Enc).
      injection Enc as <- _. exists a, b, br, (fst (Rand_Zr t)).
      rewrite Hsp. split; [assumption | split; [assumption | reflexivity]].
  - constructor.
  - apply balanced_empty.
  - rewrite Er. cbn [bind]. exists r, s'. split; [reflexivity |].
    apply NewToken_range_indices in Er as [Ei _]. split; [exact Ei |].
    destruct Hbal as (Hf & Hg & Hbal). pose proof (selected_length _ _ _ Hsel) as Hl.
    rewrite (Test_selected _ cts cs); unfold NewAlarmSystem; cbn [rt hID].
    + rewrite Hbal. f_equal. apply Equals_eq. reflexivity.
    + split; lia.
    + assumption.
Qed.

End Algebra.

(** ** Further properties over the group of order 5 *)

Lemma GenerateKeys_outcomes_witness : returns (GenerateKeys Z5.sk0 2 2 0).
Proof.
  apply (proj2 (proj1 (GenerateKeys_outcomes Z5.sk0 2 2 0))). right. lia.
Defined.

Example GenerateKeys_panics :
  GenerateKeys Z5.sk0 (-1) 2 0 = Panic MakeSliceLenOutOfRange /\
  GenerateKeys Z5.sk0 1 (-2) 0 = Panic MakeSliceLenOutOfRange /\
  returns (GenerateKeys Z5.sk0 0 (-2) 0).
Proof.
  split; [reflexivity |]. split; [reflexivity |]. eexists. reflexivity.
Qed.

Lemma GenerateKeys_key_material_witness :
  RuleGenerator_sp Z5.rg0 = SetupKey_sp Z5.sk0 /\
  len Z5.agents0 = 2 /\ len (agents Z5.rg0) = 2 /\
  forall i, 0 <= i < 2 ->
    exists a ai alpha,
      index Z5.agents0 i = Ret a /\ index (agents Z5.rg0) i = Ret ai /\
      Agent_index a = i /\ Agent_sp a = SetupKey_sp Z5.sk0 /\
      len (Agent_beta a) = 2 /\ AgentInfo_beta ai = Agent_beta a /\
      Agent_g1alpha a = G1_pow (g1 (SetupKey_sp Z5.sk0)) alpha /\
      g2alpha ai = G2_pow (g2 (SetupKey_sp Z5.sk0)) alpha /\
      g2gamma ai = G2_pow (g2 (SetupKey_sp Z5.sk0)) (Agent_gamma a).
Proof.
  apply (GenerateKeys_key_material Z5.sk0 2 2 0 8 Z5.rg0 Z5.agents0).
  vm_compute. reflexivity.
Defined.

Lemma GenerateKeys_randomness_witness :
  8 = skip (P := Z5.pairing) (Z.to_nat 2 * (Z.to_nat 2 + 2)) 0.
Proof.
  apply (GenerateKeys_randomness Z5.sk0 2 2 0 8 Z5.rg0 Z5.agents0).
  vm_compute. reflexivity.
Defined.

Lemma GenerateKeys_reads_sp_only_witness :
  GenerateKeys Z5.sk0 2 2 0 =
  GenerateKeys (@Build_SetupKey Z5.pairing
                  [@Build_SetupPart Z5.pairing Z5.e1 [Z5.e2] Z5.e3] Z5.sp0) 2 2 0.
Proof.
  apply (GenerateKeys_reads_sp_only Z5.sk0 _ 2 2 0). reflexivity.
Defined.

Lemma Ciphertext_index_position_witness :
  Ciphertext_index (@Build_Ciphertext Z5.pairing 0 Z5.e1 Z5.e4) = 0 /\
  11 = skip (P := Z5.pairing) 1 10.
Proof.
  apply (Ciphertext_index_position Z5.sk0 2 2 0 8 Z5.rg0 Z5.agents0 0 Z5.agent0
           "X" 2 10 11 (@Build_Ciphertext Z5.pairing 0 Z5.e1 Z5.e4));
    vm_compute; reflexivity.
Defined.

Lemma NewToken_entries_witness :
  len (agents Z5.rg0) <= len [1; 2] /\
  exists es,
    Entries Z5.rg0 [1; 2] 0 20 es 22 /\
    indices Z5.token0 = map entry_index es /\
    g2u Z5.token0 = map entry_g2u es /\
    f2u Z5.token0 = map entry_f2u es /\
    product Z5.token0 = fold_left G2_mul (map entry_factor es) G2_1.
Proof.
  apply (proj1 (NewToken_entries Z5.rg0 [1; 2] 20 22 Z5.token0)).
  vm_compute. reflexivity.
Defined.

Lemma NewToken_randomness_witness :
  21 = skip (P := Z5.pairing) (List.length (indices Z5.token_wild)) 20 /\
  List.length (g2u Z5.token_wild) = List.length (indices Z5.token_wild) /\
  List.length (f2u Z5.token_wild) = List.length (indices Z5.token_wild).
Proof.
  apply (NewToken_randomness Z5.rg0 [1; -1] 20 21 Z5.token_wild None).
  vm_compute. reflexivity.
Defined.

Lemma NewToken_trailing_wildcards_witness :
  NewToken Z5.rg0 ([1; 2] ++ [-1; -7]) 20 = NewToken Z5.rg0 [1; 2] 20.
Proof.
  apply (NewToken_trailing_wildcards Z5.rg0 [1; 2] [-1; -7] 20).
  - vm_compute. congruence.
  - repeat constructor.
Defined.

Lemma Test_reads_parts_only_witness :
  Test Z5.alarm0 Z5.cts0 =
  Test Z5.alarm0 [@Build_Ciphertext Z5.pairing 7 Z5.e1 Z5.e2;
                  @Build_Ciphertext Z5.pairing 9 Z5.e1 Z5.e2].
Proof.
  apply (Test_reads_parts_only Z5.alarm0 Z5.cts0).
  repeat constructor.
Defined.

Lemma Test_returns_on_token_witness :
  returns (Test (NewAlarmSystem Z5.sp0 Z5.token0 "X") Z5.cts0).
Proof.
  apply (Test_returns_on_token Z5.rg0 [1; 2] 20 22 Z5.token0 None Z5.sp0 "X" Z5.cts0).
  - vm_compute. reflexivity.
  - vm_compute. congruence.
Defined.

Lemma NewCiphertext_nonpositive_witness :
  NewCiphertext Z5.agent0 "X" (-3) 10 = NewCiphertext Z5.agent0 "X" 0 10 /\
  NewCiphertext Z5.agent0 "X" (-3) 10 =
  Ret (ciphertext_of Z5.agent0 "X" Zr_1 (fst (Rand_Zr (Pairing := Z5.pairing) 10)),
       snd (Rand_Zr (Pairing := Z5.pairing) 10)).
Proof.
  apply (NewCiphertext_nonpositive Z5.agent0 "X" (-3) 10). lia.
Defined.

Lemma F_invalid_group_witness :
  (5 < 2 ^ len [Z5.e2; Z5.e3; Z5.e4] ->
   F (P := Z5.pairing) Z5.sp0 3 (InG1 (P := Z5.pairing) Z5.e1) [Z5.e2; Z5.e3; Z5.e4] Z5.e3 5 =
   Panic (PanicString "Group should be either 1 or 2.")) /\
  (2 ^ len [Z5.e2; Z5.e3; Z5.e4] <= 5 ->
   index_panic (F (P := Z5.pairing) Z5.sp0 3 (InG1 (P := Z5.pairing) Z5.e1)
                  [Z5.e2; Z5.e3; Z5.e4] Z5.e3 5)).
Proof.
  apply (F_invalid_group (P := Z5.pairing) Z5.sp0 3 (InG1 (P := Z5.pairing) Z5.e1)
           [Z5.e2; Z5.e3; Z5.e4] Z5.e3 5); lia.
Defined.

Lemma F_mirror_witness :
  Pair (Pairing := Z5.pairing) Z5.e3 (G2_pow (Pairing := Z5.pairing) Z5.e3 Z5.e4) =
  Pair (Pairing := Z5.pairing) (G1_pow (Pairing := Z5.pairing) Z5.e2 Z5.e3) Z5.e1.
Proof.
  apply (F_mirror (P := Z5.pairing) (L := Z5_laws) Z5.sp0 Z5.e2 Z5.e3
           [Z5.e2; Z5.e3; Z5.e4] Z5.e3 Z5.e4 5 Z5.e3 Z5.e1);
    vm_compute; reflexivity.
Defined.

Lemma all_wildcards_accept_witness :
  NewToken Z5.rg0 [-1; -2] 20 = Ret ((Some empty_token, None), 20) /\
  Test (NewAlarmSystem Z5.sp0 empty_token "X") Z5.cts0 = Ret true.
Proof.
  apply (all_wildcards_accept (L := Z5_laws) Z5.rg0 [-1; -2] 20 Z5.sp0 "X" Z5.cts0).
  - vm_compute. congruence.
  - repeat constructor.
Defined.

Lemma Test_accepts_with_wildcards_witness :
  exists r s',
    NewToken Z5.rg0 [1; -1] 20 = Ret ((Some r, None), s') /\
    indices r = nonneg_positions [1; -1] 0 /\
    Test (NewAlarmSystem (SetupKey_sp Z5.sk0) r "X") Z5.cts1 = Ret true.
Proof.
  apply (Test_accepts_with_wildcards (L := Z5_laws) Z5.sk0 2 2 0 8 Z5.rg0 Z5.agents0
           "X" [1; -1] Z5.cts1 20).
  - vm_compute. reflexivity.
  - vm_compute. congruence.
  - intros k v Ek Hv. destruct k as [| [| k]]; simpl in Ek.
    + injection Ek as <-.
      exists Z5.agent0, (@Build_Ciphertext Z5.pairing 0 Z5.e1 Z5.e2), 10, 11.
      repeat split; vm_compute; reflexivity.
    + injection Ek as <-. lia.
    + destruct k; discriminate.
Defined.
